(** * A shallow embedding of sat_lab (src/literal.rs, src/clause.rs, src/instance.rs)

    Machine integers are [Z] with their ranges written out (64-bit target:
    [isize] and [usize] are 64 bits wide).  Rust integer overflow is a
    panic in debug builds and wraps in release builds; the [build] argument
    of the arithmetic helpers selects which.  A computation that may panic
    returns a [run]; a DIMACS load returns a [load_result].  Files are
    modelled by their content, a list of ASCII characters. *)

From Stdlib Require Import ZArith List Ascii String Bool Lia.
Import ListNotations.
Open Scope Z_scope.

(** ** Machine integers *)

Inductive build := Debug | Release.

Inductive run (A : Type) : Type :=
| Done (a : A)
| Panics.
Arguments Done {A} a.
Arguments Panics {A}.

Definition run_bind {A B} (r : run A) (k : A -> run B) : run B :=
  match r with
  | Done a => k a
  | Panics => Panics
  end.

Notation "x <- r ;; k" := (run_bind r (fun x => k))
  (at level 61, r at next level, right associativity).

Definition isize_min : Z := - 2 ^ 63.
Definition isize_max : Z := 2 ^ 63 - 1.
Definition usize_max : Z := 2 ^ 64 - 1.

Definition in_isize (x : Z) : bool := (isize_min <=? x) && (x <=? isize_max).
Definition in_usize (x : Z) : bool := (0 <=? x) && (x <=? usize_max).

(** Two's complement wrap-around into the signed range. *)
Definition wrap_isize (x : Z) : Z := (x + 2 ^ 63) mod 2 ^ 64 - 2 ^ 63.

(** Overflow: a panic in debug builds, wrap-around in release builds. *)
Definition isize_result (b : build) (x : Z) : run Z :=
  if in_isize x then Done x
  else match b with Debug => Panics | Release => Done (wrap_isize x) end.

Definition usize_result (b : build) (x : Z) : run Z :=
  if in_usize x then Done x
  else match b with Debug => Panics | Release => Done (x mod 2 ^ 64) end.

(** [-x], [x + y], [x.abs()] on [isize]; [x - y] on [usize]. *)
Definition isize_neg (b : build) (x : Z) : run Z := isize_result b (- x).
Definition isize_add (b : build) (x y : Z) : run Z := isize_result b (x + y).
Definition isize_abs (b : build) (x : Z) : run Z := isize_result b (Z.abs x).
Definition usize_sub (b : build) (x y : Z) : run Z := usize_result b (x - y).

(** [x as usize] for [x : isize] and [x as isize] for [x : usize]: casts
    reinterpret the bits and never panic. *)
Definition isize_as_usize (x : Z) : Z := x mod 2 ^ 64.
Definition usize_as_isize (x : Z) : Z := wrap_isize x.

(** ** BoolVec (external container): a list of booleans *)

Definition BoolVec := list bool.

Definition bv_get (v : BoolVec) (i : Z) : option bool :=
  if (0 <=? i) && (i <? Z.of_nat (List.length v)) then nth_error v (Z.to_nat i)
  else None.

(** ** src/literal.rs *)

Record Literal := mkLiteral { lit_cnf : Z }.

(** [Literal::new]: [assert!(var_index < isize::MAX as usize)]. *)
Definition Literal_new (b : build) (var_index : Z) (negated : bool) : run Literal :=
  if var_index <? isize_max then
    v <- isize_add b (usize_as_isize var_index) 1 ;;
    if negated then (nv <- isize_neg b v ;; Done (mkLiteral nv))
    else Done (mkLiteral v)
  else Panics.

Definition from_cnf (cnf : Z) : Literal := mkLiteral cnf.

Definition as_cnf (l : Literal) : Z := lit_cnf l.

(** [self.0.abs() as usize - 1] *)
Definition index (b : build) (l : Literal) : run Z :=
  a <- isize_abs b (lit_cnf l) ;;
  usize_sub b (isize_as_usize a) 1.

Definition is_negated (l : Literal) : bool := lit_cnf l <? 0.

(** [Self::from_cnf(-self.0)] *)
Definition negated (b : build) (l : Literal) : run Literal :=
  v <- isize_neg b (lit_cnf l) ;; Done (from_cnf v).

(** [vars.get(self.index()).map(|v| v ^ self.is_negated())] *)
Definition try_eval_with (b : build) (l : Literal) (vars : BoolVec) : run (option bool) :=
  i <- index b l ;;
  Done (option_map (fun v => xorb v (is_negated l)) (bv_get vars i)).

(** [self.try_eval_with(vars).unwrap()] *)
Definition eval_with (b : build) (l : Literal) (vars : BoolVec) : run bool :=
  o <- try_eval_with b l vars ;;
  match o with Some v => Done v | None => Panics end.

(** [self.0 *= -1] *)
Definition isize_mul (b : build) (x y : Z) : run Z := isize_result b (x * y).

(** [Literal::negate]: the literal after the in-place update. *)
Definition negate (b : build) (l : Literal) : run Literal :=
  v <- isize_mul b (lit_cnf l) (-1) ;; Done (mkLiteral v).

(** ** src/clause.rs *)

Record Clause := mkClause { clause_lits : list Literal }.

Definition Clause_from_cnf (cnfs : list Z) : Clause := mkClause (map from_cnf cnfs).

(** [self.iter_eval(vars).any(|x| x)]: the iterator is lazy and [any]
    stops at the first [true]. *)
Fixpoint any_eval (b : build) (ls : list Literal) (vars : BoolVec) : run bool :=
  match ls with
  | [] => Done false
  | l :: ls' =>
      x <- eval_with b l vars ;;
      if x then Done true else any_eval b ls' vars
  end.

Definition test_sat (b : build) (c : Clause) (vars : BoolVec) : run bool :=
  any_eval b (clause_lits c) vars.

Definition Clause_new (elems : list Literal) : Clause := mkClause elems.

(** [std::iter::zip(var_indices, negates).map(|(i, n)| Literal::new(i, n))
    .collect()]: the zip stops at the shorter input. *)
Fixpoint from_indices_go (b : build) (is : list Z) (ns : list bool) : run (list Literal) :=
  match is, ns with
  | i :: is', n :: ns' =>
      l <- Literal_new b i n ;;
      ls <- from_indices_go b is' ns' ;;
      Done (l :: ls)
  | _, _ => Done []
  end.

Definition Clause_from_indices (b : build) (is : list Z) (ns : list bool) : run Clause :=
  ls <- from_indices_go b is ns ;; Done (mkClause ls).

(** [self.0.iter().map(|elem| elem.negated()).collect()] *)
Fixpoint negated_all (b : build) (ls : list Literal) : run (list Literal) :=
  match ls with
  | [] => Done []
  | l :: ls' => l' <- negated b l ;; ls'' <- negated_all b ls' ;; Done (l' :: ls'')
  end.

Definition Clause_negated (b : build) (c : Clause) : run Clause :=
  ls <- negated_all b (clause_lits c) ;; Done (mkClause ls).

(** [for elem in &mut self.0 { elem.negate(); }]: the clause after the loop. *)
Fixpoint negate_all (b : build) (ls : list Literal) : run (list Literal) :=
  match ls with
  | [] => Done []
  | l :: ls' => l' <- negate b l ;; ls'' <- negate_all b ls' ;; Done (l' :: ls'')
  end.

Definition Clause_negate (b : build) (c : Clause) : run Clause :=
  ls <- negate_all b (clause_lits c) ;; Done (mkClause ls).

(** [iter_eval] and [iter_eval_negated]: lazy iterators, one evaluation per
    literal, each run when the item is pulled. *)
Definition iter_eval (b : build) (c : Clause) (vars : BoolVec) : list (run bool) :=
  map (fun l => eval_with b l vars) (clause_lits c).

Definition iter_eval_negated (b : build) (c : Clause) (vars : BoolVec) : list (run bool) :=
  map (fun l => n <- negated b l ;; eval_with b n vars) (clause_lits c).

(** ** src/instance.rs *)

Record Instance := mkInstance { vars : BoolVec; clauses : list Clause }.

(** [self.clauses.iter().filter(|c| c.test_sat(&self.vars)).count()] *)
Fixpoint count_sat_go (b : build) (cs : list Clause) (vs : BoolVec) : run Z :=
  match cs with
  | [] => Done 0
  | c :: cs' =>
      s <- test_sat b c vs ;;
      n <- count_sat_go b cs' vs ;;
      Done (if s then n + 1 else n)
  end.

Definition count_sat (b : build) (inst : Instance) : run Z :=
  count_sat_go b (clauses inst) (vars inst).

Definition is_sat (b : build) (inst : Instance) : run bool :=
  n <- count_sat b inst ;; Done (n =? Z.of_nat (List.length (clauses inst))).

(** [inst.vars = ...]: the field is public. *)
Definition set_vars (inst : Instance) (vs : BoolVec) : Instance :=
  mkInstance vs (clauses inst).

(** [Instance::with_clauses]: [boolvec![false; n]]. *)
Definition with_clauses (n : Z) (cs : list Clause) : Instance :=
  mkInstance (repeat false (Z.to_nat n)) cs.

(** *** The random source of [sample_new_variables_with]

    [rng.sample_iter(Standard)] draws booleans one after the other from a
    generator of any type [R]; [gen_bool] is one draw. *)

Section Sampling.

Variable R : Type.
Variable gen_bool : R -> bool * R.

(** [.take(n).collect::<Vec<_>>()] on the infinite sample iterator. *)
Fixpoint sample_bools (n : nat) (rng : R) : list bool * R :=
  match n with
  | O => ([], rng)
  | S n' =>
      let (x, rng1) := gen_bool rng in
      let (xs, rng2) := sample_bools n' rng1 in
      (x :: xs, rng2)
  end.

(** [self.vars = BoolVec::from(...take(self.vars.len())...); &self.vars]:
    the new instance, the advanced generator and the returned vector. *)
Definition sample_new_variables_with (inst : Instance) (rng : R)
  : Instance * R * BoolVec :=
  let (vs, rng') := sample_bools (List.length (vars inst)) rng in
  (mkInstance vs (clauses inst), rng', vs).

End Sampling.

(** *** [Instance::new_random]

    [gen_index rng n] is [rng.gen_range(0..n)] for [n > 0] ([gen_range]
    panics on the empty range).  The rejection loop may run forever: [fuel]
    bounds the number of redraws of one index, and [None] means the loop has
    not finished within [fuel]. *)

Definition fbind {A B} (m : option (run A)) (k : A -> option (run B)) : option (run B) :=
  match m with
  | None => None
  | Some Panics => Some Panics
  | Some (Done a) => k a
  end.

Section Random.

Variable R : Type.
Variable gen_bool : R -> bool * R.
Variable gen_index : R -> Z -> Z * R.

Definition gen_range (rng : R) (n : Z) : run (Z * R) :=
  if n <=? 0 then Panics else Done (gen_index rng n).

(** [while chosen_indices.contains(&idx) { idx = rng.gen_range(0..n); }] *)
Fixpoint redraw (fuel : nat) (n : Z) (chosen : list Z) (idx : Z) (rng : R)
  : option (run (Z * R)) :=
  if existsb (Z.eqb idx) chosen then
    match fuel with
    | O => None
    | S f =>
        match gen_range rng n with
        | Panics => Some Panics
        | Done (idx', rng') => redraw f n chosen idx' rng'
        end
    end
  else Some (Done (idx, rng)).

(** [for i in 0..k]: draw a fresh index, push it on [chosen_indices], store
    it in [var_indices[i]] and draw [negates[i]]. *)
Fixpoint draw_clause (fuel : nat) (k : nat) (n : Z) (chosen : list Z) (rng : R)
  : option (run (list Z * list bool * R)) :=
  match k with
  | O => Some (Done ([], [], rng))
  | S k' =>
      fbind (Some (gen_range rng n)) (fun '(idx0, rng1) =>
      fbind (redraw fuel n chosen idx0 rng1) (fun '(idx, rng2) =>
      let (neg, rng3) := gen_bool rng2 in
      fbind (draw_clause fuel k' n (chosen ++ [idx]) rng3) (fun '(is, ns, rng4) =>
      Some (Done (idx :: is, neg :: ns, rng4)))))
  end.

(** [(0..m).map(|_| { ...; chosen_indices.clear(); Clause::from_indices(...) })] *)
Fixpoint draw_clauses (b : build) (fuel : nat) (m k : nat) (n : Z) (rng : R)
  : option (run (list Clause * R)) :=
  match m with
  | O => Some (Done ([], rng))
  | S m' =>
      fbind (draw_clause fuel k n [] rng) (fun '(is, ns, rng1) =>
      fbind (Some (Clause_from_indices b is ns)) (fun c =>
      fbind (draw_clauses b fuel m' k n rng1) (fun '(cs, rng2) =>
      Some (Done (c :: cs, rng2)))))
  end.

(** The variables are drawn first, then the clauses. *)
Definition new_random (b : build) (fuel : nat) (n m k : Z) (rng : R)
  : option (run Instance) :=
  let (vs, rng1) := sample_bools R gen_bool (Z.to_nat n) rng in
  fbind (draw_clauses b fuel (Z.to_nat m) (Z.to_nat k) n rng1) (fun '(cs, _) =>
  Some (Done (mkInstance vs cs))).

End Random.

(** ** Text: [str::trim], [str::lines], [str::split_whitespace] *)

Definition text := list ascii.

Definition text_of (s : string) : text := list_ascii_of_string s.

Definition LF : ascii := ascii_of_N 10.
Definition CR : ascii := ascii_of_N 13.
Definition SP : ascii := ascii_of_N 32.

(** [char::is_whitespace] on ASCII: U+0009 to U+000D and U+0020. *)
Definition is_whitespace (c : ascii) : bool :=
  let n := N_of_ascii c in ((9 <=? n)%N && (n <=? 13)%N) || (n =? 32)%N.

Fixpoint drop_ws (s : text) : text :=
  match s with
  | [] => []
  | c :: s' => if is_whitespace c then drop_ws s' else s
  end.

(** [str::trim]: leading and trailing whitespace removed. *)
Definition trim (s : text) : text := rev (drop_ws (rev (drop_ws s))).

(** A final ['\r'] is dropped from a line that ended in ['\n']. *)
Definition strip_cr (l : text) : text :=
  match rev l with
  | c :: r => if Ascii.eqb c CR then rev r else l
  | [] => l
  end.

(** [str::lines]: split after each ['\n'], drop the ["\n"] or ["\r\n"]
    ending; a last piece without ['\n'] is kept when it is not empty.
    [acc] holds the current line, reversed. *)
Fixpoint lines_go (acc : text) (s : text) : list text :=
  match s with
  | [] => match acc with [] => [] | _ => [rev acc] end
  | c :: s' =>
      if Ascii.eqb c LF then strip_cr (rev acc) :: lines_go [] s'
      else lines_go (c :: acc) s'
  end.

Definition lines (s : text) : list text := lines_go [] s.

(** [str::split_whitespace]: maximal runs of non-whitespace. *)
Fixpoint split_ws_go (acc : text) (s : text) : list text :=
  match s with
  | [] => match acc with [] => [] | _ => [rev acc] end
  | c :: s' =>
      if is_whitespace c then
        match acc with
        | [] => split_ws_go [] s'
        | _ => rev acc :: split_ws_go [] s'
        end
      else split_ws_go (c :: acc) s'
  end.

Definition split_whitespace (s : text) : list text := split_ws_go [] s.

Definition starts_with_c (l : text) : bool :=
  match l with
  | c :: _ => Ascii.eqb c "c"%char
  | [] => false
  end.

Fixpoint skip_while {A} (p : A -> bool) (l : list A) : list A :=
  match l with
  | [] => []
  | x :: l' => if p x then skip_while p l' else l
  end.

Fixpoint take_while {A} (p : A -> bool) (l : list A) : list A :=
  match l with
  | [] => []
  | x :: l' => if p x then x :: take_while p l' else []
  end.

(** [Iterator::take(m)] with [m : usize]. *)
Fixpoint take_Z {A} (m : Z) (l : list A) : list A :=
  match l with
  | [] => []
  | x :: l' => if m <=? 0 then [] else x :: take_Z (m - 1) l'
  end.

(** [collect::<Result<Vec<_>, _>>()]: the first error wins. *)
Fixpoint collect_opt {A} (l : list (option A)) : option (list A) :=
  match l with
  | [] => Some []
  | None :: _ => None
  | Some x :: l' =>
      match collect_opt l' with
      | Some xs => Some (x :: xs)
      | None => None
      end
  end.

(** ** Integers as decimal text: [str::parse] and [Display] *)

Definition is_digit (c : ascii) : bool :=
  (48 <=? N_of_ascii c)%N && (N_of_ascii c <=? 57)%N.

Definition digit_value (c : ascii) : Z := Z.of_N (N_of_ascii c) - 48.

Fixpoint parse_digits (acc : Z) (s : text) : option Z :=
  match s with
  | [] => Some acc
  | c :: s' => if is_digit c then parse_digits (acc * 10 + digit_value c) s' else None
  end.

(** [<isize as FromStr>::from_str]: an optional ['+'] or ['-'], then at
    least one decimal digit, and the value in range. *)
Definition parse_isize (s : text) : option Z :=
  let r :=
    match s with
    | [] => None
    | c :: rest =>
        if Ascii.eqb c "+"%char then
          match rest with [] => None | _ => parse_digits 0 rest end
        else if Ascii.eqb c "-"%char then
          match rest with [] => None | _ => option_map Z.opp (parse_digits 0 rest) end
        else parse_digits 0 s
    end in
  match r with
  | Some v => if in_isize v then Some v else None
  | None => None
  end.

(** [<usize as FromStr>::from_str]: as above, ['-'] is not accepted. *)
Definition parse_usize (s : text) : option Z :=
  let r :=
    match s with
    | [] => None
    | c :: rest =>
        if Ascii.eqb c "+"%char then
          match rest with [] => None | _ => parse_digits 0 rest end
        else parse_digits 0 s
    end in
  match r with
  | Some v => if in_usize v then Some v else None
  | None => None
  end.

Definition digit_char (d : Z) : ascii := ascii_of_N (Z.to_N (d + 48)).

(** Decimal digits of [n >= 0] put in front of [acc]; 20 digits cover
    every 64-bit value. *)
Fixpoint show_digits (fuel : nat) (n : Z) (acc : text) : text :=
  match fuel with
  | O => acc
  | S f =>
      let acc' := digit_char (n mod 10) :: acc in
      if n <? 10 then acc' else show_digits f (n / 10) acc'
  end.

Definition show_usize (n : Z) : text := show_digits 20 n [].

Definition show_isize (v : Z) : text :=
  if v <? 0 then "-"%char :: show_digits 20 (- v) [] else show_digits 20 v [].

(** ** [Instance::from_file] and [Instance::to_file] on the file content *)

Inductive load_result :=
| Loaded (inst : Instance)
| InvalidInput.

(** One clause line: [clause.map(|x| x.parse())
    .take_while(|r| r.as_ref().map_or(false, |x| *x != 0))
    .map(|r| r.map(Literal::from_cnf)).collect::<Result<Clause, _>>()]. *)
Definition parse_clause_line (line : text) : option Clause :=
  let rs := map parse_isize (split_whitespace line) in
  let kept := take_while (fun r => match r with Some x => negb (x =? 0) | None => false end) rs in
  option_map mkClause (collect_opt (map (option_map from_cnf) kept)).

Definition from_file (content : text) : load_result :=
  match skip_while starts_with_c (lines (trim content)) with
  | [] => InvalidInput
  | header :: rest =>
      match skipn 1 (split_whitespace header) with
      | [] => InvalidInput
      | problem_type :: params =>
          if list_eq_dec ascii_dec problem_type (text_of "cnf") then
            match params with
            | [] => InvalidInput
            | tn :: params' =>
                match parse_usize tn with
                | None => InvalidInput
                | Some n =>
                    match params' with
                    | [] => InvalidInput
                    | tm :: _ =>
                        match parse_usize tm with
                        | None => InvalidInput
                        | Some m =>
                            match collect_opt (map parse_clause_line (take_Z m rest)) with
                            | None => InvalidInput
                            | Some cs => Loaded (mkInstance (repeat false (Z.to_nat n)) cs)
                            end
                        end
                    end
                end
            end
          else InvalidInput
      end
  end.

(** [write!(file, "{} ", elem.as_cnf())] for each literal, then
    [writeln!(file, "0")]. *)
Definition clause_line (c : Clause) : text :=
  flat_map (fun l => show_isize (as_cnf l) ++ [SP]) (clause_lits c) ++ text_of "0".

Definition header_line (inst : Instance) : text :=
  text_of "p cnf " ++ show_usize (Z.of_nat (List.length (vars inst))) ++ [SP]
  ++ show_usize (Z.of_nat (List.length (clauses inst))).

Definition to_file (inst : Instance) : text :=
  header_line inst ++ [LF] ++ flat_map (fun c => clause_line c ++ [LF]) (clauses inst).

(** ** Predicates used by the statements *)

(** A literal is out of range for [vars] when its index cannot be computed
    or is not below the length of [vars]. *)
Definition out_of_range (b : build) (vs : BoolVec) (l : Literal) : bool :=
  match index b l with
  | Done i => Z.of_nat (List.length vs) <=? i
  | Panics => true
  end.

(** A token: non-empty, no whitespace. *)
Definition word (t : text) : Prop :=
  t <> [] /\ Forall (fun c => is_whitespace c = false) t.

(** A line that ends in a non-whitespace character. *)
Definition ends_nonws (t : text) : Prop :=
  exists Y d, t = Y ++ [d] /\ is_whitespace d = false.

Definition literal_ok (b : build) (vs : BoolVec) (l : Literal) : bool :=
  in_isize (lit_cnf l) && negb (out_of_range b vs l).

(** Every literal is an [isize] and indexes a variable of [vars]. *)
Definition literals_in_bounds (b : build) (inst : Instance) : bool :=
  forallb (fun c => forallb (literal_ok b (vars inst)) (clause_lits c)) (clauses inst).

(** Reference semantics of a CNF formula: variable [|v| - 1], flipped when
    [v < 0]; a clause is a disjunction. *)
Definition sem_literal (vs : BoolVec) (l : Literal) : bool :=
  xorb (nth (Z.to_nat (Z.abs (lit_cnf l) - 1)) vs false) (is_negated l).

Definition sem_clause (vs : BoolVec) (c : Clause) : bool :=
  existsb (sem_literal vs) (clause_lits c).

(** The literal values the encoding is meant for: a nonzero [isize] other
    than [isize::MIN]. *)
Definition proper_value (v : Z) : bool :=
  in_isize v && negb (v =? 0) && negb (v =? isize_min).

(** Lines of a file: the first starts with a non-whitespace character,
    each ends with one and holds no ['\n']. *)
Definition starts_nonws (t : text) : bool :=
  match t with c :: _ => negb (is_whitespace c) | [] => false end.

Definition ends_nonws_b (t : text) : bool :=
  match rev t with d :: _ => negb (is_whitespace d) | [] => false end.

Definition has_no_LF (t : text) : bool := forallb (fun c => negb (Ascii.eqb c LF)) t.

(** ** Auxiliary facts *)

Lemma wrap_isize_small (x : Z) : 0 <= x < 2 ^ 63 -> wrap_isize x = x.
Proof.
  intros H. unfold wrap_isize.
  rewrite Z.mod_small by lia. lia.
Qed.

Lemma isize_result_in (b : build) (x : Z) :
  isize_min <= x <= isize_max -> isize_result b x = Done x.
Proof.
  intros H. unfold isize_result, in_isize.
  replace ((isize_min <=? x) && (x <=? isize_max)) with true; [reflexivity|].
  symmetry. apply andb_true_intro; split; apply Z.leb_le; lia.
Qed.

Lemma usize_result_in (b : build) (x : Z) :
  0 <= x <= usize_max -> usize_result b x = Done x.
Proof.
  intros H. unfold usize_result, in_usize.
  replace ((0 <=? x) && (x <=? usize_max)) with true; [reflexivity|].
  symmetry. apply andb_true_intro; split; apply Z.leb_le; lia.
Qed.

Lemma usize_result_range (b : build) (x y : Z) :
  usize_result b x = Done y -> 0 <= y <= usize_max.
Proof.
  unfold usize_result, in_usize, usize_max.
  destruct ((0 <=? x) && (x <=? 2 ^ 64 - 1)) eqn:E.
  - intros H; inversion H; subst.
    apply andb_prop in E as [E1 E2]. apply Z.leb_le in E1, E2. lia.
  - destruct b; intros H; inversion H; subst.
    pose proof (Z.mod_pos_bound x (2 ^ 64)) as M. lia.
Qed.

Lemma index_range (b : build) (l : Literal) (i : Z) :
  index b l = Done i -> 0 <= i <= usize_max.
Proof.
  unfold index, run_bind.
  destruct (isize_abs b (lit_cnf l)) as [a|]; [|discriminate].
  apply usize_result_range.
Qed.

Lemma bv_get_none (vs : BoolVec) (i : Z) :
  0 <= i -> (bv_get vs i = None <-> Z.of_nat (List.length vs) <= i).
Proof.
  intros Hi. unfold bv_get.
  destruct (Z.ltb_spec i (Z.of_nat (List.length vs))) as [Hlt|Hge].
  - replace (0 <=? i) with true by (symmetry; apply Z.leb_le; lia). simpl.
    split; [|lia]. intros Hn.
    apply nth_error_None in Hn. lia.
  - rewrite andb_false_r. split; auto.
Qed.

Lemma eval_with_panics (b : build) (vs : BoolVec) (l : Literal) :
  eval_with b l vs = Panics <-> out_of_range b vs l = true.
Proof.
  unfold eval_with, try_eval_with, out_of_range, run_bind.
  destruct (index b l) as [i|] eqn:Ei; [|tauto].
  pose proof (index_range b l i Ei) as Hr.
  rewrite Z.leb_le, <- (bv_get_none vs i) by lia.
  destruct (bv_get vs i); simpl; split; congruence.
Qed.

Lemma sample_bools_length (R : Type) (gen : R -> bool * R) (n : nat) (rng : R) :
  List.length (fst (sample_bools R gen n rng)) = n.
Proof.
  revert rng. induction n as [|n IH]; intros rng; simpl; [reflexivity|].
  destruct (gen rng) as [x rng1].
  specialize (IH rng1).
  destruct (sample_bools R gen n rng1) as [xs rng2]. simpl in *. lia.
Qed.

(** *** Decimal digits *)

Lemma digit_char_spec (d : Z) :
  0 <= d <= 9 -> is_digit (digit_char d) = true /\ digit_value (digit_char d) = d.
Proof.
  intros H.
  assert (d = 0 \/ d = 1 \/ d = 2 \/ d = 3 \/ d = 4 \/ d = 5 \/ d = 6 \/ d = 7
          \/ d = 8 \/ d = 9) as Hd by lia.
  repeat destruct Hd as [Hd|Hd]; subst; split; reflexivity.
Qed.

Lemma digit_not_ws (c : ascii) : is_digit c = true -> is_whitespace c = false.
Proof.
  unfold is_digit, is_whitespace. set (n := N_of_ascii c). intros H.
  apply andb_prop in H as [H1 H2]. apply N.leb_le in H1, H2.
  destruct (N.leb_spec 9 n), (N.leb_spec n 13), (N.eqb_spec n 32); simpl; auto; lia.
Qed.

Lemma ws_not_LF (c : ascii) : is_whitespace c = false -> c <> LF.
Proof. intros H E; subst; discriminate H. Qed.

Lemma ws_not_CR (c : ascii) : is_whitespace c = false -> c <> CR.
Proof. intros H E; subst; discriminate H. Qed.

Lemma show_digits_S (f : nat) (n : Z) (acc : text) :
  show_digits (S f) n acc =
  if n <? 10 then digit_char (n mod 10) :: acc
  else show_digits f (n / 10) (digit_char (n mod 10) :: acc).
Proof. reflexivity. Qed.

Lemma show_digits_shape (f : nat) (n : Z) (acc : text) :
  exists ds, show_digits (S f) n acc = ds ++ acc /\ ds <> [] /\
             Forall (fun c => is_digit c = true) ds.
Proof.
  revert n acc. induction f as [|f IH]; intros n acc.
  - pose proof (Z.mod_pos_bound n 10) as M.
    assert (Hc : is_digit (digit_char (n mod 10)) = true)
      by (apply digit_char_spec; lia).
    exists [digit_char (n mod 10)]. simpl.
    destruct (n <? 10); (split; [reflexivity | split; [discriminate | repeat constructor; exact Hc]]).
  - pose proof (Z.mod_pos_bound n 10) as M.
    assert (Hc : is_digit (digit_char (n mod 10)) = true)
      by (apply digit_char_spec; lia).
    rewrite show_digits_S.
    destruct (n <? 10).
    + exists [digit_char (n mod 10)].
      split; [reflexivity | split; [discriminate | repeat constructor; exact Hc]].
    + destruct (IH (n / 10) (digit_char (n mod 10) :: acc)) as (ds & E & Hne & Hd).
      rewrite E. exists (ds ++ [digit_char (n mod 10)]).
      rewrite <- app_assoc. repeat split.
      * destruct ds; [contradiction | discriminate].
      * apply Forall_app; split; auto.
Qed.

Lemma parse_show_digits (f : nat) (n : Z) (acc : text) :
  0 <= n < 10 ^ Z.of_nat f ->
  parse_digits 0 (show_digits f n acc) = parse_digits n acc.
Proof.
  revert n acc. induction f as [|f IH]; intros n acc Hn.
  - simpl in Hn. replace n with 0 by lia. reflexivity.
  - pose proof (Z.mod_pos_bound n 10) as M.
    destruct (digit_char_spec (n mod 10)) as [D V]; [lia|].
    rewrite show_digits_S.
    destruct (Z.ltb_spec n 10).
    + simpl. rewrite D, V. rewrite Z.mod_small by lia. reflexivity.
    + rewrite IH.
      * simpl. rewrite D, V. f_equal.
        pose proof (Z.div_mod n 10). lia.
      * rewrite Nat2Z.inj_succ, Z.pow_succ_r in Hn by lia.
        split; [apply Z.div_pos; lia|].
        apply Z.div_lt_upper_bound; lia.
Qed.

Lemma pow_20_large : 2 ^ 64 < 10 ^ Z.of_nat 20.
Proof. reflexivity. Qed.

Lemma show_usize_shape (n : Z) :
  exists c ds, show_usize n = c :: ds /\ is_digit c = true /\
               Forall (fun c => is_digit c = true) ds.
Proof.
  destruct (show_digits_shape 19 n []) as (ds & E & Hne & Hd).
  unfold show_usize. rewrite E, app_nil_r.
  destruct ds as [|c ds]; [contradiction|].
  inversion Hd; subst. exists c, ds. auto.
Qed.

Lemma parse_show_usize (n : Z) :
  0 <= n <= usize_max -> parse_usize (show_usize n) = Some n.
Proof.
  intros Hn.
  assert (P : parse_digits 0 (show_usize n) = Some n).
  { unfold show_usize. rewrite parse_show_digits; [reflexivity|].
    pose proof pow_20_large. unfold usize_max in Hn. lia. }
  destruct (show_usize_shape n) as (c & ds & E & Hc & _).
  unfold parse_usize. rewrite E. rewrite E in P.
  replace (Ascii.eqb c "+"%char) with false
    by (destruct (Ascii.eqb_spec c "+"%char); subst; [discriminate Hc | reflexivity]).
  rewrite P. unfold in_usize.
  replace ((0 <=? n) && (n <=? usize_max)) with true; [reflexivity|].
  symmetry. apply andb_true_intro; split; apply Z.leb_le; lia.
Qed.

Lemma parse_show_isize (v : Z) :
  in_isize v = true -> parse_isize (show_isize v) = Some v.
Proof.
  intros Hv. unfold in_isize, isize_min, isize_max in Hv.
  apply andb_prop in Hv as [H1 H2]. apply Z.leb_le in H1, H2.
  pose proof pow_20_large.
  unfold parse_isize, show_isize.
  destruct (Z.ltb_spec v 0).
  - destruct (show_digits_shape 19 (- v) []) as (ds & E & Hne & _).
    rewrite E, app_nil_r. cbn -[parse_digits].
    destruct ds as [|c ds]; [contradiction|].
    rewrite <- (app_nil_r (c :: ds)), <- E, parse_show_digits by lia.
    simpl. rewrite Z.opp_involutive. unfold in_isize, isize_min, isize_max.
    replace ((- 2 ^ 63 <=? v) && (v <=? 2 ^ 63 - 1)) with true; [reflexivity|].
    symmetry. apply andb_true_intro; split; apply Z.leb_le; lia.
  - assert (P : parse_digits 0 (show_digits 20 v []) = Some v)
      by (rewrite parse_show_digits; [reflexivity | lia]).
    destruct (show_digits_shape 19 v []) as (ds & E & Hne & Hd).
    rewrite E, app_nil_r in *.
    destruct ds as [|c ds]; [contradiction|].
    inversion Hd; subst.
    replace (Ascii.eqb c "+"%char) with false
      by (destruct (Ascii.eqb_spec c "+"%char); subst; [discriminate | reflexivity]).
    replace (Ascii.eqb c "-"%char) with false
      by (destruct (Ascii.eqb_spec c "-"%char); subst; [discriminate | reflexivity]).
    rewrite P. unfold in_isize, isize_min, isize_max.
    replace ((- 2 ^ 63 <=? v) && (v <=? 2 ^ 63 - 1)) with true; [reflexivity|].
    symmetry. apply andb_true_intro; split; apply Z.leb_le; lia.
Qed.

(** *** Words, lines and trimming *)

Lemma split_ws_go_word (t : text) (acc s : text) :
  Forall (fun c => is_whitespace c = false) t ->
  split_ws_go acc (t ++ s) = split_ws_go (rev t ++ acc) s.
Proof.
  revert acc. induction t as [|c t IH]; intros acc Ht; [reflexivity|].
  inversion Ht; subst. simpl. rewrite H1, IH by assumption.
  rewrite <- app_assoc. reflexivity.
Qed.

Lemma split_ws_words (toks : list text) (z : text) :
  Forall word toks ->
  split_whitespace (flat_map (fun t => t ++ [SP]) toks ++ z) =
  toks ++ split_whitespace z.
Proof.
  unfold split_whitespace. induction toks as [|t toks IH]; intros Hw; [reflexivity|].
  inversion Hw as [|? ? [Hne Ht] Hrest]; subst. simpl.
  rewrite <- !app_assoc, split_ws_go_word by assumption. simpl.
  rewrite app_nil_r.
  destruct (rev t) eqn:Er.
  - apply (f_equal (@rev ascii)) in Er. rewrite rev_involutive in Er. contradiction.
  - rewrite <- Er, rev_involutive. f_equal. apply IH; assumption.
Qed.

Lemma split_ws_single (z : text) : word z -> split_whitespace z = [z].
Proof.
  intros [Hne Hz]. unfold split_whitespace.
  rewrite <- (app_nil_r z) at 1. rewrite split_ws_go_word by assumption.
  rewrite app_nil_r. simpl.
  destruct (rev z) eqn:Er.
  - apply (f_equal (@rev ascii)) in Er. rewrite rev_involutive in Er. contradiction.
  - rewrite <- Er, rev_involutive. reflexivity.
Qed.

Lemma lines_go_line (t : text) (acc rest : text) :
  Forall (fun c => c <> LF) t ->
  lines_go acc (t ++ LF :: rest) = strip_cr (rev acc ++ t) :: lines_go [] rest.
Proof.
  revert acc. induction t as [|c t IH]; intros acc Ht.
  - simpl. rewrite app_nil_r. reflexivity.
  - inversion Ht; subst. simpl.
    destruct (Ascii.eqb_spec c LF); [contradiction|].
    rewrite IH by assumption. simpl. rewrite <- app_assoc. reflexivity.
Qed.

Lemma lines_flat (L : list text) :
  Forall (Forall (fun c => c <> LF)) L ->
  lines (flat_map (fun t => t ++ [LF]) L) = map strip_cr L.
Proof.
  unfold lines. induction L as [|t L IH]; intros HL; [reflexivity|].
  inversion HL; subst. simpl.
  rewrite <- app_assoc. simpl. rewrite lines_go_line by assumption.
  simpl. f_equal. apply IH; assumption.
Qed.

Lemma strip_cr_nonws (Y : text) (d : ascii) :
  is_whitespace d = false -> strip_cr (Y ++ [d]) = Y ++ [d].
Proof.
  intros Hd. unfold strip_cr. rewrite rev_app_distr. simpl.
  destruct (Ascii.eqb_spec d CR) as [E|_]; [apply ws_not_CR in Hd; contradiction|].
  reflexivity.
Qed.

(** A final [LF] after a non-whitespace character adds no line. *)
Lemma lines_go_final_LF (X : text) (d : ascii) (acc : text) :
  is_whitespace d = false ->
  lines_go acc (X ++ [d; LF]) = lines_go acc (X ++ [d]).
Proof.
  intros Hd. revert acc. induction X as [|c X IH]; intros acc.
  - simpl. destruct (Ascii.eqb_spec d LF) as [E|_]; [apply ws_not_LF in Hd; contradiction|].
    simpl. rewrite strip_cr_nonws by assumption. reflexivity.
  - simpl. destruct (Ascii.eqb c LF); [f_equal|]; apply IH.
Qed.

Lemma drop_ws_nonws (c : ascii) (s : text) :
  is_whitespace c = false -> drop_ws (c :: s) = c :: s.
Proof. intros H. simpl. rewrite H. reflexivity. Qed.

Lemma trim_final_LF (c : ascii) (s Y : text) (d : ascii) :
  is_whitespace c = false -> is_whitespace d = false ->
  c :: s = Y ++ [d] ->
  trim (Y ++ [d; LF]) = Y ++ [d].
Proof.
  intros Hc Hd E. unfold trim.
  replace (Y ++ [d; LF]) with (c :: s ++ [LF])
    by (rewrite app_comm_cons, E, <- app_assoc; reflexivity).
  rewrite drop_ws_nonws by assumption.
  rewrite app_comm_cons, E, <- app_assoc, rev_app_distr.
  change (rev ([d] ++ [LF]) ++ rev Y) with (LF :: d :: rev Y).
  change (drop_ws (LF :: d :: rev Y)) with (drop_ws (d :: rev Y)).
  rewrite drop_ws_nonws by assumption.
  change (rev (d :: rev Y)) with (rev (rev Y) ++ [d]).
  rewrite rev_involutive. reflexivity.
Qed.

(** *** The shape of [to_file] *)

Lemma word_ends (t z : text) : word z -> ends_nonws (t ++ z).
Proof.
  intros [Hne Hz]. destruct (exists_last Hne) as (Y & d & E). subst z.
  apply Forall_app in Hz as [_ Hd]. inversion Hd; subst.
  exists (t ++ Y), d. rewrite app_assoc. auto.
Qed.

Lemma nonws_no_LF (t : text) :
  Forall (fun c => is_whitespace c = false) t -> Forall (fun c => c <> LF) t.
Proof. intros H. eapply Forall_impl; [|exact H]. apply ws_not_LF. Qed.

Lemma show_usize_word (n : Z) : word (show_usize n).
Proof.
  destruct (show_usize_shape n) as (c & ds & E & Hc & Hds). rewrite E.
  split; [discriminate|].
  constructor; [apply digit_not_ws; exact Hc|].
  eapply Forall_impl; [|exact Hds]. apply digit_not_ws.
Qed.

Lemma show_isize_word (v : Z) : word (show_isize v).
Proof.
  unfold show_isize.
  destruct (show_digits_shape 19 (- v) []) as (ds & E & Hne & Hd).
  destruct (show_digits_shape 19 v []) as (ds' & E' & Hne' & Hd').
  destruct (v <? 0).
  - rewrite E, app_nil_r. split; [discriminate|]. constructor; [reflexivity|].
    eapply Forall_impl; [|exact Hd]. apply digit_not_ws.
  - rewrite E', app_nil_r. split; [exact Hne'|].
    eapply Forall_impl; [|exact Hd']. apply digit_not_ws.
Qed.

Lemma text_0_word : word (text_of "0").
Proof. split; [discriminate | repeat constructor]. Qed.

Lemma clause_line_flat (c : Clause) :
  clause_line c =
  flat_map (fun t => t ++ [SP]) (map (fun l => show_isize (lit_cnf l)) (clause_lits c))
  ++ text_of "0".
Proof.
  unfold clause_line. f_equal.
  induction (clause_lits c) as [|l ls IH]; simpl; [reflexivity|].
  rewrite IH. reflexivity.
Qed.

Lemma clause_line_ends (c : Clause) : ends_nonws (clause_line c).
Proof. unfold clause_line. apply word_ends, text_0_word. Qed.

Lemma clause_line_no_LF (c : Clause) : Forall (fun x => x <> LF) (clause_line c).
Proof.
  rewrite clause_line_flat. apply Forall_app. split.
  - induction (clause_lits c) as [|l ls IH]; simpl; [constructor|].
    apply Forall_app; split; [apply Forall_app; split|exact IH].
    + apply nonws_no_LF, show_isize_word.
    + repeat constructor. discriminate.
  - repeat constructor. discriminate.
Qed.

Lemma header_line_flat (inst : Instance) :
  header_line inst =
  flat_map (fun t => t ++ [SP])
    [text_of "p"; text_of "cnf"; show_usize (Z.of_nat (List.length (vars inst)))]
  ++ show_usize (Z.of_nat (List.length (clauses inst))).
Proof. unfold header_line. simpl. rewrite <- !app_assoc. reflexivity. Qed.

Lemma header_line_no_LF (inst : Instance) : Forall (fun x => x <> LF) (header_line inst).
Proof.
  rewrite header_line_flat. cbn [flat_map].
  repeat (apply Forall_app; split).
  all: try (apply nonws_no_LF, show_usize_word).
  all: repeat constructor; intro E; discriminate E.
Qed.

Lemma split_header_line (inst : Instance) :
  split_whitespace (header_line inst) =
  [text_of "p"; text_of "cnf"; show_usize (Z.of_nat (List.length (vars inst)));
   show_usize (Z.of_nat (List.length (clauses inst)))].
Proof.
  rewrite header_line_flat, split_ws_words.
  - rewrite split_ws_single by apply show_usize_word. reflexivity.
  - repeat constructor; try discriminate; try apply show_usize_word.
Qed.

Lemma to_file_lines (inst : Instance) :
  to_file inst =
  flat_map (fun t => t ++ [LF]) (header_line inst :: map clause_line (clauses inst)).
Proof.
  assert (F : forall cs, flat_map (fun c => clause_line c ++ [LF]) cs =
                         flat_map (fun t => t ++ [LF]) (map clause_line cs)).
  { induction cs as [|c cs IH]; simpl; [reflexivity|]. rewrite IH. reflexivity. }
  unfold to_file. rewrite F. cbn [map flat_map]. rewrite <- app_assoc. reflexivity.
Qed.

Lemma flat_final_LF (t : text) (L : list text) :
  ends_nonws t -> Forall ends_nonws L ->
  exists Y d, flat_map (fun t => t ++ [LF]) (t :: L) = Y ++ [d; LF] /\
              is_whitespace d = false.
Proof.
  revert t. induction L as [|t' L IH]; intros t Ht HL.
  - destruct Ht as (Y & d & -> & Hd). exists Y, d. simpl.
    rewrite app_nil_r, <- app_assoc. auto.
  - inversion HL; subst.
    destruct (IH t' H1 H2) as (Y & d & E & Hd).
    exists ((t ++ [LF]) ++ Y), d. split; [|exact Hd].
    change (flat_map (fun t => t ++ [LF]) (t :: t' :: L))
      with ((t ++ [LF]) ++ flat_map (fun t => t ++ [LF]) (t' :: L)).
    rewrite E, app_assoc. reflexivity.
Qed.

Lemma lines_trim_to_file (inst : Instance) :
  lines (trim (to_file inst)) = header_line inst :: map clause_line (clauses inst).
Proof.
  assert (Hends : Forall ends_nonws (header_line inst :: map clause_line (clauses inst))).
  { constructor.
    - rewrite header_line_flat. apply word_ends, show_usize_word.
    - apply Forall_forall. intros t Ht. apply in_map_iff in Ht as (c & <- & _).
      apply clause_line_ends. }
  assert (HLF : Forall (Forall (fun x => x <> LF))
                  (header_line inst :: map clause_line (clauses inst))).
  { constructor; [apply header_line_no_LF|].
    apply Forall_forall. intros t Ht. apply in_map_iff in Ht as (c & <- & _).
    apply clause_line_no_LF. }
  inversion Hends as [|? ? Hh Hcs]; subst.
  destruct (flat_final_LF _ _ Hh Hcs) as (Y & d & E & Hd).
  rewrite <- to_file_lines in E.
  assert (Hp : exists s, to_file inst = "p"%char :: s) by (eexists; reflexivity).
  destruct Hp as (s0 & Hs).
  assert (Hs' : exists s, "p"%char :: s = Y ++ [d]).
  { rewrite E in Hs. destruct Y as [|y Y']; simpl in Hs; inversion Hs; subst.
    - exists []. reflexivity.
    - exists (Y' ++ [d]). reflexivity. }
  destruct Hs' as (s & Hs').
  rewrite E. rewrite (trim_final_LF "p"%char s Y d); [| reflexivity | exact Hd | exact Hs'].
  unfold lines. rewrite <- lines_go_final_LF by exact Hd.
  rewrite <- E, to_file_lines. fold (lines (flat_map (fun t => t ++ [LF])
                     (header_line inst :: map clause_line (clauses inst)))).
  rewrite lines_flat by exact HLF.
  rewrite <- (map_id (header_line inst :: map clause_line (clauses inst))) at 2.
  apply map_ext_in. intros t Ht.
  rewrite Forall_forall in Hends. destruct (Hends t Ht) as (Y' & d' & -> & Hd').
  apply strip_cr_nonws, Hd'.
Qed.

(** *** Reading back what [to_file] wrote *)

Lemma index_zero (b : build) :
  index b (mkLiteral 0) = match b with Debug => Panics | Release => Done usize_max end.
Proof. destruct b; reflexivity. Qed.

Lemma in_bounds_nonzero (b : build) (vs : BoolVec) (l : Literal) :
  Z.of_nat (List.length vs) <= usize_max ->
  out_of_range b vs l = false -> lit_cnf l <> 0.
Proof.
  intros Hlen Hout E. destruct l as [v]. simpl in E. subst v.
  unfold out_of_range in Hout. rewrite index_zero in Hout.
  destruct b; [discriminate|]. apply Z.leb_gt in Hout. lia.
Qed.

Lemma parse_clause_line_tokens (ls : list Literal) :
  Forall (fun l => in_isize (lit_cnf l) = true /\ lit_cnf l <> 0) ls ->
  take_while (fun r => match r with Some x => negb (x =? 0) | None => false end)
    (map parse_isize
       (split_whitespace
          (flat_map (fun t => t ++ [SP]) (map (fun l => show_isize (lit_cnf l)) ls)
           ++ text_of "0")))
  = map (fun l => Some (lit_cnf l)) ls.
Proof.
  induction ls as [|l ls IH]; intros Hls; [reflexivity|].
  inversion Hls as [|? ? [Hr Hnz] Hrest]; subst.
  cbn [map flat_map].
  rewrite <- app_assoc.
  replace ((show_isize (lit_cnf l) ++ [SP]) ++ _)
    with (flat_map (fun t => t ++ [SP]) [show_isize (lit_cnf l)] ++
          (flat_map (fun t => t ++ [SP]) (map (fun l => show_isize (lit_cnf l)) ls)
           ++ text_of "0"))
    by (simpl; rewrite app_nil_r; reflexivity).
  rewrite split_ws_words by (repeat constructor; apply show_isize_word).
  simpl. rewrite parse_show_isize by exact Hr.
  replace (negb (lit_cnf l =? 0)) with true
    by (symmetry; apply negb_true_iff, Z.eqb_neq; exact Hnz).
  f_equal. apply IH, Hrest.
Qed.

Lemma collect_literals (ls : list Literal) :
  collect_opt (map (option_map from_cnf) (map (fun l => Some (lit_cnf l)) ls)) = Some ls.
Proof.
  induction ls as [|[v] ls IH]; [reflexivity|]. simpl. rewrite IH. reflexivity.
Qed.

Lemma parse_clause_line_roundtrip (c : Clause) :
  Forall (fun l => in_isize (lit_cnf l) = true /\ lit_cnf l <> 0) (clause_lits c) ->
  parse_clause_line (clause_line c) = Some c.
Proof.
  intros H. unfold parse_clause_line. rewrite clause_line_flat.
  rewrite parse_clause_line_tokens by exact H.
  rewrite collect_literals. destruct c; reflexivity.
Qed.

Lemma take_Z_all {A} (l : list A) (m : Z) :
  Z.of_nat (List.length l) <= m -> take_Z m l = l.
Proof.
  revert m. induction l as [|x l IH]; intros m Hm; [reflexivity|].
  simpl in Hm. simpl.
  destruct (Z.leb_spec m 0) as [H|H]; [lia|].
  rewrite IH by lia. reflexivity.
Qed.

Lemma collect_clause_lines (cs : list Clause) :
  Forall (fun c => Forall (fun l => in_isize (lit_cnf l) = true /\ lit_cnf l <> 0)
                          (clause_lits c)) cs ->
  collect_opt (map parse_clause_line (map clause_line cs)) = Some cs.
Proof.
  induction cs as [|c cs IH]; intros H; [reflexivity|].
  inversion H; subst. simpl.
  rewrite parse_clause_line_roundtrip by assumption.
  rewrite IH by assumption. reflexivity.
Qed.

Lemma literals_in_bounds_forall (b : build) (inst : Instance) :
  Z.of_nat (List.length (vars inst)) <= usize_max ->
  literals_in_bounds b inst = true ->
  Forall (fun c => Forall (fun l => in_isize (lit_cnf l) = true /\ lit_cnf l <> 0)
                          (clause_lits c)) (clauses inst).
Proof.
  intros Hlen H. unfold literals_in_bounds in H. rewrite forallb_forall in H.
  apply Forall_forall. intros c Hc. specialize (H c Hc). rewrite forallb_forall in H.
  apply Forall_forall. intros l Hl. specialize (H l Hl).
  unfold literal_ok in H. apply andb_prop in H as [H1 H2]. apply negb_true_iff in H2.
  split; [exact H1|]. eapply in_bounds_nonzero; eassumption.
Qed.

(** *** Evaluation order of [test_sat] and [count_sat] *)

Lemma any_eval_panics (b : build) (ls : list Literal) (vs : BoolVec) :
  any_eval b ls vs = Panics <->
  exists p l r, ls = p ++ l :: r /\
                Forall (fun x => eval_with b x vs = Done false) p /\
                out_of_range b vs l = true.
Proof.
  induction ls as [|l ls IH]; simpl.
  - split; [discriminate|]. intros (p & l & r & E & _). destruct p; discriminate.
  - destruct (eval_with b l vs) as [[|]|] eqn:El; simpl.
    + split; [discriminate|]. intros (p & l' & r & E & Hp & Hl').
      destruct p as [|x p]; simpl in E; inversion E; subst.
      * apply eval_with_panics in Hl'. congruence.
      * inversion Hp; subst. congruence.
    + rewrite IH. split.
      * intros (p & l' & r & -> & Hp & Hl'). exists (l :: p), l', r.
        repeat split; auto.
      * intros (p & l' & r & E & Hp & Hl').
        destruct p as [|x p]; simpl in E; inversion E; subst.
        -- apply eval_with_panics in Hl'. congruence.
        -- inversion Hp; subst. exists p, l', r. auto.
    + split; [|reflexivity]. intros _. exists [], l, ls.
      repeat split; auto. apply eval_with_panics, El.
Qed.

Lemma count_sat_go_panics (b : build) (cs : list Clause) (vs : BoolVec) :
  count_sat_go b cs vs = Panics <-> Exists (fun c => test_sat b c vs = Panics) cs.
Proof.
  induction cs as [|c cs IH]; simpl.
  - split; [discriminate|]. intros H. inversion H.
  - rewrite Exists_cons, <- IH.
    destruct (test_sat b c vs) as [s|]; simpl; [|tauto].
    destruct (count_sat_go b cs vs); simpl; split; try discriminate; intuition congruence.
Qed.

(** ** Claims *)

(** C1: a header declaring 2 clauses followed by a single clause line is
    not rejected: [lines.take(m)] takes the one line there is and the load
    succeeds with a one-clause instance. *)
Theorem from_file_fewer_clause_lines :
  from_file (text_of "p cnf 3 2
1 -2 0") = Loaded (mkInstance [false; false; false] [Clause_from_cnf [1; -2]]).
Proof. vm_compute. reflexivity. Qed.

(** C2: a token that does not parse ([x]) before the [0] terminator is not
    an error: [take_while] stops at the failed parse, so the clause keeps
    the literals before it and the load succeeds. *)
Theorem from_file_bad_token_truncates :
  from_file (text_of "p cnf 3 1
1 x 2 0") = Loaded (mkInstance [false; false; false] [Clause_from_cnf [1]]).
Proof. vm_compute. reflexivity. Qed.

(** C3 (counterexample): a first line whose leading token is [q], not [p],
    is accepted: the leading token is skipped without being looked at. *)
Lemma from_file_leading_token_unchecked :
  from_file (text_of "q cnf 3 2
1 -2 0
-1 3 0") = Loaded (mkInstance [false; false; false]
                    [Clause_from_cnf [1; -2]; Clause_from_cnf [-1; 3]]).
Proof. vm_compute. reflexivity. Qed.

(** C3 (amended): a load succeeds only if the first non-comment line has
    [cnf] as its second token followed by two tokens that parse as [usize]
    [n] and [m], and the instance then has [n] false variables; so
    [p wff 3 2] is rejected.  The first token is not inspected. *)
Theorem from_file_header_checked :
  (forall content inst, from_file content = Loaded inst ->
     exists header rest t0 tn tm more n m,
       skip_while starts_with_c (lines (trim content)) = header :: rest /\
       split_whitespace header = t0 :: text_of "cnf" :: tn :: tm :: more /\
       parse_usize tn = Some n /\ parse_usize tm = Some m /\
       vars inst = repeat false (Z.to_nat n)) /\
  from_file (text_of "p wff 3 2") = InvalidInput.
Proof.
  split; [|vm_compute; reflexivity].
  intros content inst H. unfold from_file in H.
  destruct (skip_while starts_with_c (lines (trim content))) as [|header rest] eqn:Es;
    [discriminate|].
  destruct (split_whitespace header) as [|t0 toks] eqn:Eh; [discriminate|].
  simpl in H. destruct toks as [|pt params]; [discriminate|].
  match type of H with
  | context [if ?d then _ else _] => destruct d as [Ept|]; [|discriminate]
  end.
  subst pt.
  destruct params as [|tn params']; [discriminate|].
  destruct (parse_usize tn) as [n|] eqn:En; [|discriminate].
  destruct params' as [|tm more]; [discriminate|].
  destruct (parse_usize tm) as [m|] eqn:Em; [|discriminate].
  destruct (collect_opt (map parse_clause_line (take_Z m rest))); [|discriminate].
  inversion H; subst.
  exists header, rest, t0, tn, tm, more, n, m. auto.
Qed.

(** C4 (counterexample): [Literal::new(isize::MAX - 1, false)] does not
    panic although the index is not below [isize::MAX - 1]. *)
Lemma Literal_new_max_minus_one :
  ~ (isize_max - 1 < isize_max - 1) /\
  Literal_new Debug (isize_max - 1) false = Done (mkLiteral isize_max).
Proof. split; [lia | reflexivity]. Qed.

(** C4 (amended): for every [usize] index, [Literal::new] panics exactly
    when the index is not below [isize::MAX]; below it the literal has that
    index and that negation flag. *)
Theorem Literal_new_panics_iff (b : build) (i : Z) (neg : bool) :
  0 <= i <= usize_max ->
  (Literal_new b i neg = Panics <-> isize_max <= i) /\
  (i < isize_max ->
   exists l, Literal_new b i neg = Done l /\ index b l = Done i /\ is_negated l = neg).
Proof.
  intros Hi.
  assert (Hok : i < isize_max ->
                Literal_new b i neg = Done (mkLiteral (if neg then - (i + 1) else i + 1))).
  { intros Hlt. unfold Literal_new, usize_as_isize, isize_add, isize_neg, isize_max in *.
    replace (i <? 2 ^ 63 - 1) with true by (symmetry; apply Z.ltb_lt; lia).
    rewrite wrap_isize_small by lia.
    rewrite isize_result_in by (unfold isize_min, isize_max; lia). simpl.
    destruct neg; [|reflexivity].
    rewrite isize_result_in by (unfold isize_min, isize_max; lia). reflexivity. }
  split.
  - split.
    + intros H. destruct (Z.lt_ge_cases i isize_max) as [Hlt|]; [|assumption].
      rewrite (Hok Hlt) in H. discriminate.
    + intros Hge. unfold Literal_new.
      replace (i <? isize_max) with false by (symmetry; apply Z.ltb_ge; lia).
      reflexivity.
  - intros Hlt. rewrite (Hok Hlt). eexists; split; [reflexivity|].
    unfold isize_max in Hlt.
    assert (Ha : Z.abs (if neg then - (i + 1) else i + 1) = i + 1)
      by (destruct neg; lia).
    unfold index, is_negated, isize_abs, usize_sub, isize_as_usize. simpl lit_cnf.
    rewrite Ha, isize_result_in by (unfold isize_min, isize_max; lia). simpl.
    rewrite Z.mod_small by lia.
    rewrite usize_result_in by (unfold usize_max; lia).
    split; [f_equal; lia|].
    destruct neg; [apply Z.ltb_lt | apply Z.ltb_ge]; lia.
Qed.

(** Witness of [Literal_new_panics_iff] at index 5. *)
Lemma Literal_new_panics_iff_witness :
  0 <= 5 <= usize_max /\ (Literal_new Debug 5 true = Panics <-> isize_max <= 5).
Proof.
  split; [unfold usize_max; lia|].
  exact (proj1 (Literal_new_panics_iff Debug 5 true ltac:(unfold usize_max; lia))).
Defined.

(** C5 (counterexample): the clause [(x0 ∨ x4)] holds the out-of-range
    literal [x4] for the one-variable assignment [[true]], yet [test_sat]
    returns [true] and [count_sat] returns 1: [any] stops at [x0]. *)
Lemma test_sat_short_circuits :
  out_of_range Debug [true] (from_cnf 5) = true /\
  test_sat Debug (Clause_from_cnf [1; 5]) [true] = Done true /\
  count_sat Debug (mkInstance [true] [Clause_from_cnf [1; 5]]) = Done 1.
Proof. repeat split; reflexivity. Qed.

(** C5 (amended): [test_sat] panics exactly when, scanning the literals in
    order, an out-of-range literal is reached while every literal before it
    evaluated to false; [count_sat] and [is_sat] panic exactly when
    [test_sat] panics on some clause. *)
Theorem test_sat_panics_iff (b : build) :
  (forall c vs, test_sat b c vs = Panics <->
     exists p l r, clause_lits c = p ++ l :: r /\
                   Forall (fun x => eval_with b x vs = Done false) p /\
                   out_of_range b vs l = true) /\
  (forall inst, count_sat b inst = Panics <->
     Exists (fun c => test_sat b c (vars inst) = Panics) (clauses inst)) /\
  (forall inst, is_sat b inst = Panics <-> count_sat b inst = Panics).
Proof.
  split; [|split].
  - intros c vs. apply any_eval_panics.
  - intros inst. apply count_sat_go_panics.
  - intros inst. unfold is_sat. destruct (count_sat b inst); simpl; split; congruence.
Qed.

(** C6 (counterexample): for [from_cnf(isize::MIN)] the first [negated()]
    overflows and panics in a debug build. *)
Lemma negated_isize_min_panics :
  in_isize isize_min = true /\ negated Debug (from_cnf isize_min) = Panics.
Proof. split; reflexivity. Qed.

(** C6 (amended): double negation is the identity for every literal whose
    value is not [isize::MIN], in either build; in a release build it is the
    identity for every literal ([-isize::MIN] wraps to [isize::MIN]); in a
    debug build [from_cnf(isize::MIN).negated()] panics. *)
Theorem negated_negated (b : build) (l : Literal) :
  in_isize (lit_cnf l) = true ->
  (lit_cnf l <> isize_min -> (n <- negated b l ;; negated b n) = Done l) /\
  (n <- negated Release l ;; negated Release n) = Done l /\
  (lit_cnf l = isize_min -> negated Debug l = Panics).
Proof.
  destruct l as [v]. simpl. intros Hv.
  unfold in_isize, isize_min, isize_max in Hv.
  apply andb_prop in Hv as [H1 H2]. apply Z.leb_le in H1, H2.
  assert (Hmid : forall b', v <> isize_min ->
                 (n <- negated b' (mkLiteral v) ;; negated b' n) = Done (mkLiteral v)).
  { intros b' Hne. unfold isize_min in Hne.
    unfold negated, isize_neg. simpl.
    rewrite isize_result_in by (unfold isize_min, isize_max; lia). simpl.
    rewrite isize_result_in by (unfold isize_min, isize_max; lia).
    unfold from_cnf. rewrite Z.opp_involutive. reflexivity. }
  split; [apply Hmid|split].
  - destruct (Z.eq_dec v isize_min) as [->|Hne]; [reflexivity|]. apply Hmid, Hne.
  - intros ->. reflexivity.
Qed.

(** Witness of [negated_negated] at the literal [-3]. *)
Lemma negated_negated_witness :
  in_isize (-3) = true /\
  (n <- negated Debug (mkLiteral (-3)) ;; negated Debug n) = Done (mkLiteral (-3)).
Proof.
  split; [reflexivity|].
  apply (proj1 (negated_negated Debug (mkLiteral (-3)) eq_refl)).
  simpl. unfold isize_min. lia.
Defined.

(** C7: what [to_file] writes, [from_file] reads back as the same clause
    sequence and an all-false assignment of the same length, whenever every
    literal is an [isize] indexing a variable and the lengths fit a [usize]. *)
Theorem to_file_from_file (b : build) (inst : Instance) :
  Z.of_nat (List.length (vars inst)) <= usize_max ->
  Z.of_nat (List.length (clauses inst)) <= usize_max ->
  literals_in_bounds b inst = true ->
  from_file (to_file inst) =
  Loaded (mkInstance (repeat false (List.length (vars inst))) (clauses inst)).
Proof.
  intros Hv Hc Hl.
  pose proof (literals_in_bounds_forall b inst Hv Hl) as Hlits.
  unfold from_file. rewrite lines_trim_to_file.
  assert (Hs : starts_with_c (header_line inst) = false) by reflexivity.
  cbn [skip_while]. rewrite Hs, split_header_line. cbn [skipn].
  destruct (list_eq_dec ascii_dec (text_of "cnf") (text_of "cnf")) as [_|N];
    [|contradiction N; reflexivity].
  rewrite !parse_show_usize by lia.
  rewrite take_Z_all by (rewrite length_map; lia).
  rewrite collect_clause_lines by exact Hlits.
  rewrite Nat2Z.id. reflexivity.
Qed.

(** Witness of [to_file_from_file] on a two-variable, two-clause instance. *)
Lemma to_file_from_file_witness :
  from_file (to_file (mkInstance [true; false] [Clause_from_cnf [1; -2]; Clause_from_cnf [-1]]))
  = Loaded (mkInstance [false; false] [Clause_from_cnf [1; -2]; Clause_from_cnf [-1]]).
Proof.
  apply (to_file_from_file Debug); [unfold usize_max; simpl; lia | unfold usize_max; simpl; lia |].
  vm_compute. reflexivity.
Defined.

(** C8: the DIMACS scenario of the specification. *)
Theorem dimacs_scenario (b : build) :
  let loaded := from_file (text_of "p cnf 3 2
1 -2 0
-1 3 0") in
  let inst := mkInstance [false; false; false]
                [Clause_from_cnf [1; -2]; Clause_from_cnf [-1; 3]] in
  loaded = Loaded inst /\
  test_sat b (Clause_from_cnf [1; -2]) [false; true; false] = Done false /\
  test_sat b (Clause_from_cnf [-1; 3]) [false; true; false] = Done true /\
  count_sat b (set_vars inst [false; true; false]) = Done 1 /\
  is_sat b (set_vars inst [false; true; false]) = Done false /\
  test_sat b (Clause_from_cnf [1; -2]) [true; false; true] = Done true /\
  test_sat b (Clause_from_cnf [-1; 3]) [true; false; true] = Done true /\
  count_sat b (set_vars inst [true; false; true]) = Done 2 /\
  is_sat b (set_vars inst [true; false; true]) = Done true.
Proof.
  destruct b; vm_compute; repeat split; reflexivity.
Qed.

(** C9: resampling keeps the clauses, keeps the length of the assignment,
    and returns the new assignment. *)
Theorem sample_new_variables_frame (R : Type) (gen_bool : R -> bool * R)
    (inst : Instance) (rng : R) :
  match sample_new_variables_with R gen_bool inst rng with
  | (inst', _, ret) =>
      clauses inst' = clauses inst /\
      List.length (vars inst') = List.length (vars inst) /\
      ret = vars inst'
  end.
Proof.
  unfold sample_new_variables_with.
  pose proof (sample_bools_length R gen_bool (List.length (vars inst)) rng) as Hlen.
  destruct (sample_bools R gen_bool (List.length (vars inst)) rng) as [vs rng'].
  simpl in *. auto.
Qed.

(** C10: [Literal::from_cnf(0)] is accepted, and in a debug build its
    [index()] underflows, so [index], [try_eval_with] and [eval_with] panic
    for every assignment. *)
Theorem from_cnf_zero_panics (vs : BoolVec) :
  lit_cnf (from_cnf 0) = 0 /\
  index Debug (from_cnf 0) = Panics /\
  try_eval_with Debug (from_cnf 0) vs = Panics /\
  eval_with Debug (from_cnf 0) vs = Panics.
Proof. repeat split; reflexivity. Qed.

(** Witness of [from_file_header_checked] on the scenario file. *)
Lemma from_file_header_checked_witness :
  exists header rest t0 tn tm more n m,
    skip_while starts_with_c (lines (trim (text_of "p cnf 3 2
1 -2 0
-1 3 0"))) = header :: rest /\
    split_whitespace header = t0 :: text_of "cnf" :: tn :: tm :: more /\
    parse_usize tn = Some n /\ parse_usize tm = Some m /\
    vars (mkInstance [false; false; false]
            [Clause_from_cnf [1; -2]; Clause_from_cnf [-1; 3]]) = repeat false (Z.to_nat n).
Proof.
  apply (proj1 from_file_header_checked).
  vm_compute. reflexivity.
Defined.

(** ** Further properties of the code *)

(** *** Literals *)

Lemma proper_value_spec (v : Z) :
  proper_value v = true -> isize_min < v <= isize_max /\ v <> 0.
Proof.
  unfold proper_value, in_isize. intros H.
  apply andb_prop in H as [H H3]. apply andb_prop in H as [H H2].
  apply andb_prop in H as [H0 H1].
  apply Z.leb_le in H0, H1. apply negb_true_iff, Z.eqb_neq in H2, H3. lia.
Qed.

Lemma index_proper (b : build) (v : Z) :
  proper_value v = true -> index b (mkLiteral v) = Done (Z.abs v - 1).
Proof.
  intros H. apply proper_value_spec in H. unfold isize_min, isize_max in H.
  unfold index, isize_abs, isize_as_usize. simpl.
  rewrite isize_result_in by (unfold isize_min, isize_max; lia). simpl.
  rewrite Z.mod_small by lia.
  apply usize_result_in. unfold usize_max. lia.
Qed.

Lemma negated_proper (b : build) (v : Z) :
  proper_value v = true ->
  negated b (mkLiteral v) = Done (mkLiteral (- v)) /\
  negate b (mkLiteral v) = Done (mkLiteral (- v)) /\
  proper_value (- v) = true.
Proof.
  intros H. pose proof (proper_value_spec v H) as [Hr Hnz].
  unfold isize_min, isize_max in Hr.
  unfold negated, negate, isize_neg, isize_mul. simpl.
  replace (v * -1) with (- v) by lia.
  rewrite isize_result_in by (unfold isize_min, isize_max; lia).
  split; [reflexivity|split; [reflexivity|]].
  unfold proper_value, in_isize, isize_min, isize_max.
  repeat (apply andb_true_intro; split);
    try (apply Z.leb_le; lia); apply negb_true_iff, Z.eqb_neq; lia.
Qed.

Lemma Literal_new_value (b : build) (i : Z) (neg : bool) :
  0 <= i < isize_max ->
  Literal_new b i neg = Done (mkLiteral (if neg then - (i + 1) else i + 1)).
Proof.
  intros Hi. unfold isize_max in Hi.
  unfold Literal_new, usize_as_isize, isize_add, isize_neg, isize_max.
  replace (i <? 2 ^ 63 - 1) with true by (symmetry; apply Z.ltb_lt; lia).
  rewrite wrap_isize_small by lia.
  rewrite isize_result_in by (unfold isize_min, isize_max; lia). simpl.
  destruct neg; [|reflexivity].
  rewrite isize_result_in by (unfold isize_min, isize_max; lia). reflexivity.
Qed.

(** X1: for a nonzero [isize] value other than [isize::MIN], [from_cnf]
    and [new] are the two sides of one encoding: [index()] is [|v| - 1],
    [is_negated()] is [v < 0], and [Literal::new] on these gives the same
    literal back. *)
Theorem from_cnf_new_agree (b : build) (v : Z) :
  proper_value v = true ->
  index b (from_cnf v) = Done (Z.abs v - 1) /\
  is_negated (from_cnf v) = (v <? 0) /\
  Literal_new b (Z.abs v - 1) (v <? 0) = Done (from_cnf v).
Proof.
  intros H. pose proof (proper_value_spec v H) as [Hr Hnz].
  unfold isize_min, isize_max in Hr.
  split; [apply index_proper, H|split; [reflexivity|]].
  rewrite Literal_new_value by (unfold isize_max; lia).
  unfold from_cnf. f_equal.
  destruct (Z.ltb_spec v 0); f_equal; lia.
Qed.

Lemma from_cnf_new_agree_witness :
  index Debug (from_cnf (-7)) = Done 6 /\ is_negated (from_cnf (-7)) = true /\
  Literal_new Debug 6 true = Done (from_cnf (-7)).
Proof. exact (from_cnf_new_agree Debug (-7) eq_refl). Defined.

(** X2: [negated()] and [negate()] give the same literal; it keeps the
    index and flips the negation flag, for every nonzero value other than
    [isize::MIN]. *)
Theorem negated_keeps_index (b : build) (l : Literal) :
  proper_value (lit_cnf l) = true ->
  exists l', negated b l = Done l' /\ negate b l = Done l' /\
             index b l' = index b l /\ is_negated l' = negb (is_negated l).
Proof.
  destruct l as [v]. simpl. intros H.
  destruct (negated_proper b v H) as (E1 & E2 & H').
  pose proof (proper_value_spec v H) as [_ Hnz].
  exists (mkLiteral (- v)). repeat split; auto.
  - rewrite !index_proper by assumption. f_equal. lia.
  - unfold is_negated. simpl.
    destruct (Z.ltb_spec v 0), (Z.ltb_spec (- v) 0); simpl; lia.
Qed.

Lemma negated_keeps_index_witness :
  exists l', negated Release (mkLiteral 4) = Done l' /\ negate Release (mkLiteral 4) = Done l' /\
             index Release l' = index Release (mkLiteral 4) /\
             is_negated l' = negb (is_negated (mkLiteral 4)).
Proof. exact (negated_keeps_index Release (mkLiteral 4) eq_refl). Defined.

Lemma negated_eval (b : build) (l : Literal) (vs : BoolVec) :
  proper_value (lit_cnf l) = true ->
  (n <- negated b l ;; eval_with b n vs) = (x <- eval_with b l vs ;; Done (negb x)).
Proof.
  destruct l as [v]. simpl. intros H.
  destruct (negated_proper b v H) as (E1 & _ & H').
  pose proof (proper_value_spec v H) as [_ Hnz].
  rewrite E1. simpl.
  unfold eval_with, try_eval_with.
  rewrite !index_proper by assumption. simpl.
  rewrite Z.abs_opp.
  destruct (bv_get vs (Z.abs v - 1)) as [x|]; simpl; [|reflexivity].
  unfold is_negated. simpl. f_equal.
  destruct (Z.ltb_spec v 0), (Z.ltb_spec (- v) 0); try lia; destruct x; reflexivity.
Qed.

(** X3: evaluating the negated literal gives the opposite value, and panics
    exactly when evaluating the literal panics. *)
Theorem eval_with_negated (b : build) (l : Literal) (vs : BoolVec) :
  proper_value (lit_cnf l) = true ->
  (n <- negated b l ;; eval_with b n vs) = (x <- eval_with b l vs ;; Done (negb x)).
Proof. apply negated_eval. Qed.

Lemma eval_with_negated_witness :
  (n <- negated Debug (mkLiteral 2) ;; eval_with Debug n [true; false]) =
  (x <- eval_with Debug (mkLiteral 2) [true; false] ;; Done (negb x)).
Proof. exact (eval_with_negated Debug (mkLiteral 2) [true; false] eq_refl). Defined.

(** X4: for a nonzero value other than [isize::MIN], [try_eval_with] never
    panics; it returns [None] exactly when the index [|v| - 1] is not below
    the length of the assignment; [eval_with] panics exactly then, and
    otherwise returns the same value. *)
Theorem try_eval_with_bounds (b : build) (l : Literal) (vs : BoolVec) :
  proper_value (lit_cnf l) = true ->
  exists o, try_eval_with b l vs = Done o /\
            (o = None <-> Z.of_nat (List.length vs) <= Z.abs (lit_cnf l) - 1) /\
            (eval_with b l vs = Panics <-> o = None) /\
            (forall x, o = Some x -> eval_with b l vs = Done x).
Proof.
  destruct l as [v]. simpl. intros H.
  pose proof (proper_value_spec v H) as [_ Hnz].
  unfold eval_with, try_eval_with. rewrite index_proper by assumption. simpl.
  eexists. split; [reflexivity|].
  pose proof (bv_get_none vs (Z.abs v - 1) ltac:(lia)) as Hb.
  destruct (bv_get vs (Z.abs v - 1)) as [x|]; simpl.
  - repeat split; try discriminate.
    + intros Hle. apply Hb in Hle. discriminate.
    + intros y Hy. inversion Hy. reflexivity.
  - repeat split; auto; [apply Hb; reflexivity | intros y Hy; discriminate].
Qed.

Lemma try_eval_with_bounds_witness :
  exists o, try_eval_with Debug (mkLiteral (-3)) [true] = Done o /\
            (o = None <-> Z.of_nat (List.length [true]) <= Z.abs (-3) - 1) /\
            (eval_with Debug (mkLiteral (-3)) [true] = Panics <-> o = None) /\
            (forall x, o = Some x -> eval_with Debug (mkLiteral (-3)) [true] = Done x).
Proof. exact (try_eval_with_bounds Debug (mkLiteral (-3)) [true] eq_refl). Defined.

(** *** Clauses *)

Lemma Literal_new_ge (b : build) (i : Z) (neg : bool) :
  isize_max <= i -> Literal_new b i neg = Panics.
Proof.
  intros H. unfold Literal_new.
  replace (i <? isize_max) with false by (symmetry; apply Z.ltb_ge; exact H).
  reflexivity.
Qed.

Lemma Literal_new_index (b : build) (i : Z) (neg : bool) :
  0 <= i < isize_max ->
  exists l, Literal_new b i neg = Done l /\ index b l = Done i /\
            is_negated l = neg /\ proper_value (lit_cnf l) = true.
Proof.
  intros Hi. rewrite Literal_new_value by exact Hi.
  eexists. split; [reflexivity|].
  unfold isize_max in Hi.
  assert (Hp : proper_value (if neg then - (i + 1) else i + 1) = true).
  { unfold proper_value, in_isize, isize_min, isize_max.
    destruct neg; repeat (apply andb_true_intro; split);
      try (apply Z.leb_le; lia); apply negb_true_iff, Z.eqb_neq; lia. }
  split; [|split; [|exact Hp]].
  - rewrite index_proper by exact Hp. f_equal. destruct neg; lia.
  - unfold is_negated. simpl. destruct neg.
    + apply Z.ltb_lt. lia.
    + apply Z.ltb_ge. lia.
Qed.

Lemma forallb_Forall {A} (f : A -> bool) (l : list A) :
  forallb f l = true -> Forall (fun x => f x = true) l.
Proof. intros H. apply Forall_forall. intros x Hx. rewrite forallb_forall in H. auto. Qed.

Lemma literal_of_abs (l : Literal) :
  proper_value (lit_cnf l) = true ->
  mkLiteral (if is_negated l then - (Z.abs (lit_cnf l) - 1 + 1)
             else Z.abs (lit_cnf l) - 1 + 1) = l.
Proof.
  destruct l as [v]. unfold is_negated. simpl. intros _.
  f_equal. destruct (Z.ltb_spec v 0); lia.
Qed.

(** X5: [Clause::from_indices] rebuilds a clause from the indices and
    negation flags of its literals (the [construction] test of the crate),
    for literals that are nonzero [isize] values other than [isize::MIN]. *)
Theorem from_indices_roundtrip (b : build) (ls : list Literal) :
  forallb (fun l => proper_value (lit_cnf l)) ls = true ->
  Clause_from_indices b (map (fun l => Z.abs (lit_cnf l) - 1) ls) (map is_negated ls)
  = Done (mkClause ls).
Proof.
  intros H. apply forallb_Forall in H.
  unfold Clause_from_indices.
  enough (E : from_indices_go b (map (fun l => Z.abs (lit_cnf l) - 1) ls) (map is_negated ls)
              = Done ls) by (rewrite E; reflexivity).
  induction H as [|l ls Hl Hls IH]; [reflexivity|].
  simpl. pose proof (proper_value_spec _ Hl) as [Hr Hnz].
  unfold isize_min, isize_max in Hr.
  rewrite Literal_new_value by (unfold isize_max; lia). simpl.
  rewrite IH. simpl. rewrite literal_of_abs by exact Hl. reflexivity.
Qed.

Lemma from_indices_roundtrip_witness :
  Clause_from_indices Debug (map (fun l => Z.abs (lit_cnf l) - 1) [mkLiteral 1; mkLiteral (-3)])
    (map is_negated [mkLiteral 1; mkLiteral (-3)]) = Done (mkClause [mkLiteral 1; mkLiteral (-3)]).
Proof. apply (from_indices_roundtrip Debug). reflexivity. Defined.

Lemma from_indices_go_spec (b : build) (is : list Z) (ns : list bool) :
  Forall (fun i => 0 <= i) is ->
  (from_indices_go b is ns = Panics <->
   Exists (fun i => isize_max <= i) (firstn (List.length ns) is)) /\
  (forall ls, from_indices_go b is ns = Done ls ->
   Forall2 (fun l p => index b l = Done (fst p) /\ is_negated l = snd p)
           ls (combine is ns)).
Proof.
  intros H.
  revert ns. induction H as [|i is Hi His IH]; intros ns.
  - simpl. destruct ns; simpl; (split; [split; [discriminate|intros E; inversion E]|]);
      intros ls E; inversion E; constructor.
  - destruct ns as [|n ns].
    + simpl. split; [split; [discriminate|intros E; inversion E]|].
      intros ls E; inversion E; constructor.
    + cbn [from_indices_go List.length firstn combine].
      destruct (Z.ltb_spec i isize_max) as [Hlt|Hge].
      * destruct (Literal_new_index b i n (conj Hi Hlt)) as (l & El & Hix & Hneg & _).
        rewrite El. simpl. destruct (IH ns) as [IH1 IH2].
        split.
        -- rewrite Exists_cons, <- IH1.
           destruct (from_indices_go b is ns); simpl; split; try discriminate.
           ++ intros [Hm|Hm]; [lia|discriminate].
           ++ intros _. right. reflexivity.
           ++ intros _. reflexivity.
        -- intros ls E. destruct (from_indices_go b is ns) as [ls'|] eqn:Er;
             simpl in E; inversion E; subst.
           constructor; [simpl; auto | apply IH2; reflexivity].
      * rewrite Literal_new_ge by exact Hge. simpl.
        split; [split; [intros _; constructor; exact Hge | reflexivity] | discriminate].
Qed.

(** X6: [Clause::from_indices] zips its inputs: it panics exactly when one
    of the indices it reaches (the first [negates.len()] ones) is not below
    [isize::MAX]; otherwise the i-th literal has the i-th index and the i-th
    negation flag, and the clause has as many literals as the shorter input. *)
Theorem from_indices_zip (b : build) (is : list Z) (ns : list bool) :
  forallb (fun i => 0 <=? i) is = true ->
  (Clause_from_indices b is ns = Panics <->
   Exists (fun i => isize_max <= i) (firstn (List.length ns) is)) /\
  (forall c, Clause_from_indices b is ns = Done c ->
   Forall2 (fun l p => index b l = Done (fst p) /\ is_negated l = snd p)
           (clause_lits c) (combine is ns)).
Proof.
  intros H. apply forallb_Forall in H. unfold Clause_from_indices.
  assert (G : Forall (fun i => 0 <= i) is) by (eapply Forall_impl; [|exact H];
    intros i Hi; apply Z.leb_le, Hi).
  apply (from_indices_go_spec b is ns) in G as [G1 G2].
  destruct (from_indices_go b is ns) as [ls|]; simpl.
  - split; [rewrite <- G1; split; discriminate|].
    intros c Hc. inversion Hc. apply G2. reflexivity.
  - split; [rewrite <- G1; tauto | discriminate].
Qed.

Lemma from_indices_zip_witness :
  (Clause_from_indices Release [0; 2; 9] [true; false] = Panics <->
   Exists (fun i => isize_max <= i) (firstn (List.length [true; false]) [0; 2; 9])) /\
  (forall c, Clause_from_indices Release [0; 2; 9] [true; false] = Done c ->
   Forall2 (fun l p => index Release l = Done (fst p) /\ is_negated l = snd p)
           (clause_lits c) (combine [0; 2; 9] [true; false])).
Proof. apply (from_indices_zip Release). reflexivity. Defined.

Lemma negated_all_proper (b : build) (ls : list Literal) :
  Forall (fun l => proper_value (lit_cnf l) = true) ls ->
  negated_all b ls = Done (map (fun l => mkLiteral (- lit_cnf l)) ls) /\
  negate_all b ls = Done (map (fun l => mkLiteral (- lit_cnf l)) ls) /\
  Forall (fun l => proper_value (lit_cnf l) = true) (map (fun l => mkLiteral (- lit_cnf l)) ls).
Proof.
  intros H. induction H as [|[v] ls Hl Hls IH].
  { repeat split; constructor. }
  destruct IH as [IH1 [IH2 IH3]]. simpl in Hl. destruct (negated_proper b v Hl) as (E1 & E2 & Hp).
  simpl. rewrite E1, E2, IH1, IH2. simpl.
  split; [reflexivity|split; [reflexivity|constructor; assumption]].
Qed.

(** X7: for literals that are nonzero [isize] values other than
    [isize::MIN], [Clause::negated] and [Clause::negate] give the same
    clause, and negating that clause again gives back the original one. *)
Theorem Clause_negated_involutive (b : build) (c : Clause) :
  forallb (fun l => proper_value (lit_cnf l)) (clause_lits c) = true ->
  exists c', Clause_negated b c = Done c' /\ Clause_negate b c = Done c' /\
             Clause_negated b c' = Done c.
Proof.
  intros H. apply forallb_Forall in H.
  destruct (negated_all_proper b _ H) as (E1 & E2 & H').
  destruct (negated_all_proper b _ H') as (E3 & _ & _).
  exists (mkClause (map (fun l => mkLiteral (- lit_cnf l)) (clause_lits c))).
  unfold Clause_negated, Clause_negate. rewrite E1, E2. simpl.
  repeat split. rewrite E3. simpl. rewrite map_map. simpl.
  destruct c as [ls]. simpl. f_equal. f_equal.
  rewrite <- (map_id ls) at 2. apply map_ext. intros [v]. simpl. f_equal. lia.
Qed.

Lemma Clause_negated_involutive_witness :
  exists c', Clause_negated Debug (Clause_from_cnf [1; -2]) = Done c' /\
             Clause_negate Debug (Clause_from_cnf [1; -2]) = Done c' /\
             Clause_negated Debug c' = Done (Clause_from_cnf [1; -2]).
Proof. apply (Clause_negated_involutive Debug). reflexivity. Defined.

(** X8: [iter_eval_negated] yields, literal by literal, the negation of what
    [iter_eval] yields, with a panic at the same positions (the [operations]
    test of the crate). *)
Theorem iter_eval_negated_flips (b : build) (c : Clause) (vs : BoolVec) :
  forallb (fun l => proper_value (lit_cnf l)) (clause_lits c) = true ->
  iter_eval_negated b c vs = map (fun r => x <- r ;; Done (negb x)) (iter_eval b c vs).
Proof.
  intros H. apply forallb_Forall in H.
  unfold iter_eval_negated, iter_eval. rewrite map_map.
  apply map_ext_in. intros l Hl. apply negated_eval.
  rewrite Forall_forall in H. auto.
Qed.

Lemma iter_eval_negated_flips_witness :
  iter_eval_negated Debug (Clause_from_cnf [1; -2; 3]) [true; true] =
  map (fun r => x <- r ;; Done (negb x)) (iter_eval Debug (Clause_from_cnf [1; -2; 3]) [true; true]).
Proof. apply (iter_eval_negated_flips Debug). reflexivity. Defined.

(** *** What [test_sat], [count_sat] and [is_sat] compute *)

Lemma index_ok (b : build) (vs : BoolVec) (l : Literal) :
  literal_ok b vs l = true -> Z.of_nat (List.length vs) <= usize_max ->
  index b l = Done (Z.abs (lit_cnf l) - 1) /\
  Z.abs (lit_cnf l) - 1 < Z.of_nat (List.length vs).
Proof.
  intros H Hlen. unfold literal_ok in H.
  apply andb_prop in H as [Hi Ho]. apply negb_true_iff in Ho.
  pose proof (in_bounds_nonzero b vs l Hlen Ho) as Hnz.
  destruct l as [v]. simpl in *.
  destruct (Z.eqb_spec v isize_min) as [->|Hmin].
  - destruct b.
    + assert (E : index Debug (mkLiteral isize_min) = Panics) by reflexivity.
      unfold out_of_range in Ho. rewrite E in Ho. discriminate.
    + assert (E : index Release (mkLiteral isize_min) = Done (2 ^ 63 - 1)) by reflexivity.
      unfold out_of_range in Ho. rewrite E in Ho. apply Z.leb_gt in Ho.
      rewrite E. unfold isize_min. split; [f_equal|]; lia.
  - assert (Hp : proper_value v = true).
    { unfold proper_value. rewrite Hi. simpl.
      apply andb_true_intro; split; apply negb_true_iff, Z.eqb_neq; assumption. }
    unfold out_of_range in Ho. rewrite index_proper in Ho by exact Hp.
    apply Z.leb_gt in Ho. rewrite index_proper by exact Hp. auto.
Qed.

Lemma eval_with_ok (b : build) (vs : BoolVec) (l : Literal) :
  literal_ok b vs l = true -> Z.of_nat (List.length vs) <= usize_max ->
  eval_with b l vs = Done (sem_literal vs l).
Proof.
  intros H Hlen. destruct (index_ok b vs l H Hlen) as [Ei Hlt].
  pose proof (index_range b l _ Ei) as Hr.
  unfold eval_with, try_eval_with. rewrite Ei. simpl.
  unfold bv_get.
  replace ((0 <=? Z.abs (lit_cnf l) - 1) && (Z.abs (lit_cnf l) - 1 <? Z.of_nat (List.length vs)))
    with true.
  2:{ symmetry. apply andb_true_intro. split; [apply Z.leb_le | apply Z.ltb_lt]; lia. }
  rewrite nth_error_nth' with (d := false) by lia. reflexivity.
Qed.

Lemma any_eval_ok (b : build) (vs : BoolVec) (ls : list Literal) :
  Forall (fun l => literal_ok b vs l = true) ls -> Z.of_nat (List.length vs) <= usize_max ->
  any_eval b ls vs = Done (existsb (sem_literal vs) ls).
Proof.
  intros H Hlen. induction H as [|l ls Hl Hls IH]; [reflexivity|].
  simpl. rewrite eval_with_ok by assumption. simpl.
  destruct (sem_literal vs l); [reflexivity|exact IH].
Qed.

Lemma count_sat_go_ok (b : build) (vs : BoolVec) (cs : list Clause) :
  Forall (fun c => forallb (literal_ok b vs) (clause_lits c) = true) cs ->
  Z.of_nat (List.length vs) <= usize_max ->
  count_sat_go b cs vs = Done (Z.of_nat (List.length (filter (sem_clause vs) cs))).
Proof.
  intros H Hlen. induction H as [|c cs Hc Hcs IH]; [reflexivity|].
  simpl. unfold test_sat. rewrite any_eval_ok by (auto; apply forallb_Forall, Hc).
  simpl. rewrite IH. simpl. unfold sem_clause.
  destruct (existsb (sem_literal vs) (clause_lits c)); simpl; f_equal; lia.
Qed.

Lemma filter_length_full {A} (f : A -> bool) (l : list A) :
  List.length (filter f l) = List.length l <-> forallb f l = true.
Proof.
  induction l as [|x l IH]; simpl; [tauto|].
  destruct (f x); simpl.
  - rewrite <- IH. lia.
  - split; [|discriminate]. pose proof (filter_length_le f l). lia.
Qed.

(** X9: when every literal of the clause is an [isize] whose index is below
    the length of [vars], [test_sat] does not panic and returns whether
    some literal is true: variable [|v| - 1], flipped when [v < 0]. *)
Theorem test_sat_disjunction (b : build) (c : Clause) (vs : BoolVec) :
  forallb (literal_ok b vs) (clause_lits c) = true ->
  Z.of_nat (List.length vs) <= usize_max ->
  test_sat b c vs = Done (sem_clause vs c).
Proof.
  intros H Hlen. apply any_eval_ok; [apply forallb_Forall, H | exact Hlen].
Qed.

Lemma test_sat_disjunction_witness :
  test_sat Release (Clause_from_cnf [-2; 1]) [false; true] =
  Done (sem_clause [false; true] (Clause_from_cnf [-2; 1])).
Proof.
  apply (test_sat_disjunction Release); [reflexivity | unfold usize_max; simpl; lia].
Defined.

(** X10: when every literal of the instance is an [isize] whose index is
    below the number of variables, [count_sat] is the number of clauses that
    hold under [vars], and [is_sat] says whether all of them hold. *)
Theorem count_sat_is_sat_semantics (b : build) (inst : Instance) :
  literals_in_bounds b inst = true ->
  Z.of_nat (List.length (vars inst)) <= usize_max ->
  count_sat b inst = Done (Z.of_nat (List.length (filter (sem_clause (vars inst)) (clauses inst)))) /\
  is_sat b inst = Done (forallb (sem_clause (vars inst)) (clauses inst)).
Proof.
  intros H Hlen. unfold literals_in_bounds in H. apply forallb_Forall in H.
  assert (E : count_sat b inst =
              Done (Z.of_nat (List.length (filter (sem_clause (vars inst)) (clauses inst)))))
    by (apply count_sat_go_ok; assumption).
  split; [exact E|].
  unfold is_sat. rewrite E. simpl. f_equal.
  destruct (forallb (sem_clause (vars inst)) (clauses inst)) eqn:F.
  - apply filter_length_full in F. rewrite F. apply Z.eqb_refl.
  - apply Z.eqb_neq. intros F'. apply Nat2Z.inj, filter_length_full in F'. congruence.
Qed.

Lemma count_sat_is_sat_semantics_witness :
  let inst := mkInstance [true; false] [Clause_from_cnf [1; 2]; Clause_from_cnf [-1]] in
  count_sat Debug inst = Done (Z.of_nat (List.length (filter (sem_clause (vars inst)) (clauses inst)))) /\
  is_sat Debug inst = Done (forallb (sem_clause (vars inst)) (clauses inst)).
Proof.
  apply (count_sat_is_sat_semantics Debug); [reflexivity | unfold usize_max; simpl; lia].
Defined.

Lemma existsb_map_local {A B} (f : A -> B) (p : B -> bool) (l : list A) :
  existsb p (map f l) = existsb (fun x => p (f x)) l.
Proof. induction l as [|x l IH]; simpl; [reflexivity|]. rewrite IH. reflexivity. Qed.

Lemma existsb_ext_in {A} (p q : A -> bool) (l : list A) :
  (forall x, In x l -> p x = q x) -> existsb p l = existsb q l.
Proof.
  intros H. induction l as [|x l IH]; simpl; [reflexivity|].
  rewrite (H x (or_introl eq_refl)).
  rewrite IH; [reflexivity|]. intros y Hy. apply H. right. exact Hy.
Qed.

(** X11: [Clause::negated] negates each literal, so it is not the negation
    of the clause: for in-range literals (nonzero, other than [isize::MIN])
    the negated clause holds exactly when some literal of the original
    clause is false. *)
Theorem test_sat_negated_clause (b : build) (c : Clause) (vs : BoolVec) :
  forallb (fun l => proper_value (lit_cnf l) && negb (out_of_range b vs l)) (clause_lits c) = true ->
  Z.of_nat (List.length vs) <= usize_max ->
  exists c', Clause_negated b c = Done c' /\
             test_sat b c' vs = Done (existsb (fun l => negb (sem_literal vs l)) (clause_lits c)).
Proof.
  intros H Hlen. apply forallb_Forall in H.
  assert (Hp : Forall (fun l => proper_value (lit_cnf l) = true) (clause_lits c)).
  { eapply Forall_impl; [|exact H]. intros l Hl. apply andb_prop in Hl. tauto. }
  destruct (negated_all_proper b _ Hp) as (E1 & _ & _).
  eexists. unfold Clause_negated. rewrite E1. split; [reflexivity|].
  unfold test_sat. simpl. rewrite any_eval_ok; [|clear -H Hlen|exact Hlen].
  - f_equal. rewrite existsb_map_local. apply existsb_ext_in.
    intros [v] Hin. rewrite Forall_forall in Hp. specialize (Hp _ Hin).
    apply proper_value_spec in Hp as [_ Hnz]. simpl in Hnz.
    unfold sem_literal, is_negated. simpl. rewrite Z.abs_opp.
    destruct (nth _ vs false), (Z.ltb_spec (- v) 0), (Z.ltb_spec v 0);
      simpl; try reflexivity; lia.
  - induction H as [|[v] ls Hl Hls IH]; simpl; constructor; [|exact IH].
    simpl in Hl. apply andb_prop in Hl as [Hl Ho]. apply negb_true_iff in Ho.
    pose proof (proper_value_spec v Hl) as [Hr Hnz].
    unfold literal_ok. apply andb_true_intro. simpl. split.
    + unfold in_isize, isize_min, isize_max in *.
      apply andb_true_intro; split; apply Z.leb_le; lia.
    + apply negb_true_iff. unfold out_of_range in *.
      rewrite index_proper in Ho by exact Hl.
      destruct (negated_proper b v Hl) as (_ & _ & Hl').
      rewrite index_proper by exact Hl'. rewrite Z.abs_opp. exact Ho.
Qed.

Lemma test_sat_negated_clause_witness :
  exists c', Clause_negated Debug (Clause_from_cnf [1; -2]) = Done c' /\
             test_sat Debug c' [true; false] =
             Done (existsb (fun l => negb (sem_literal [true; false] l))
                           (clause_lits (Clause_from_cnf [1; -2]))).
Proof.
  apply (test_sat_negated_clause Debug); [reflexivity | unfold usize_max; simpl; lia].
Defined.

(** X12: [Instance::with_clauses] starts from the all-false assignment, so
    when every literal is an [isize] whose index is below [n], [count_sat]
    is the number of clauses that contain a negative literal. *)
Theorem with_clauses_count_sat (b : build) (n : Z) (cs : list Clause) :
  n <= usize_max ->
  literals_in_bounds b (with_clauses n cs) = true ->
  count_sat b (with_clauses n cs) =
  Done (Z.of_nat (List.length (filter (fun c => existsb is_negated (clause_lits c)) cs))).
Proof.
  intros Hn H. unfold literals_in_bounds in H. apply forallb_Forall in H.
  unfold count_sat. rewrite count_sat_go_ok; [| exact H |].
  - simpl. do 3 f_equal. apply filter_ext. intros c.
    unfold sem_clause. apply existsb_ext_in. intros l _.
    unfold sem_literal. rewrite nth_repeat. reflexivity.
  - simpl. rewrite repeat_length. unfold usize_max in *. lia.
Qed.

Lemma with_clauses_count_sat_witness :
  count_sat Release (with_clauses 3 [Clause_from_cnf [1; 2]; Clause_from_cnf [-3; 2]]) =
  Done (Z.of_nat (List.length (filter (fun c => existsb is_negated (clause_lits c))
                                 [Clause_from_cnf [1; 2]; Clause_from_cnf [-3; 2]]))).
Proof.
  apply (with_clauses_count_sat Release); [unfold usize_max; lia | reflexivity].
Defined.

(** *** [Instance::new_random] *)

Lemma fbind_done {A B} (m : option (run A)) (k : A -> option (run B)) (y : B) :
  fbind m k = Some (Done y) -> exists a, m = Some (Done a) /\ k a = Some (Done y).
Proof. destruct m as [[a|]|]; simpl; intros H; [eauto|discriminate|discriminate]. Qed.

Lemma gen_range_ok {R} (gen_index : R -> Z -> Z * R) (rng r : R) (n idx : Z) :
  (forall r n', 0 < n' -> 0 <= fst (gen_index r n') < n') ->
  gen_range R gen_index rng n = Done (idx, r) -> 0 <= idx < n.
Proof.
  intros Hg H. unfold gen_range in H.
  destruct (Z.leb_spec n 0); [discriminate|].
  inversion H as [E]. pose proof (Hg rng n ltac:(lia)) as G.
  rewrite E in G. exact G.
Qed.

Lemma gen_range_pos {R} (gen_index : R -> Z -> Z * R) (rng : R) (n : Z) :
  0 < n -> gen_range R gen_index rng n = Done (gen_index rng n).
Proof.
  intros H. unfold gen_range. replace (n <=? 0) with false by (symmetry; apply Z.leb_gt, H).
  reflexivity.
Qed.

Lemma redraw_ok {R} (gen_index : R -> Z -> Z * R) (n : Z) (chosen : list Z) :
  (forall r n', 0 < n' -> 0 <= fst (gen_index r n') < n') ->
  forall fuel idx rng idx' r, 0 <= idx < n ->
  redraw R gen_index fuel n chosen idx rng = Some (Done (idx', r)) ->
  0 <= idx' < n /\ ~ In idx' chosen.
Proof.
  intros Hg fuel. induction fuel as [|fuel IH]; intros idx rng idx' r Hi H; simpl in H;
    destruct (existsb (Z.eqb idx) chosen) eqn:E.
  - discriminate.
  - inversion H; subst. split; [exact Hi|]. intros Hin.
    assert (T : existsb (Z.eqb idx') chosen = true)
      by (apply existsb_exists; exists idx'; split; [exact Hin | apply Z.eqb_refl]).
    congruence.
  - destruct (gen_range R gen_index rng n) as [[idx1 r1]|] eqn:Eg; [|discriminate].
    eapply IH; [|exact H]. eapply gen_range_ok; eassumption.
  - inversion H; subst. split; [exact Hi|]. intros Hin.
    assert (T : existsb (Z.eqb idx') chosen = true)
      by (apply existsb_exists; exists idx'; split; [exact Hin | apply Z.eqb_refl]).
    congruence.
Qed.

Lemma redraw_no_panic {R} (gen_index : R -> Z -> Z * R) (n : Z) (chosen : list Z) :
  0 < n -> forall fuel idx rng, redraw R gen_index fuel n chosen idx rng <> Some Panics.
Proof.
  intros Hn fuel. induction fuel as [|fuel IH]; intros idx rng; simpl;
    destruct (existsb (Z.eqb idx) chosen); try discriminate.
  rewrite gen_range_pos by exact Hn. destruct (gen_index rng n). apply IH.
Qed.

Lemma draw_clause_ok {R} (gen_bool : R -> bool * R) (gen_index : R -> Z -> Z * R)
  (fuel : nat) (n : Z) :
  (forall r n', 0 < n' -> 0 <= fst (gen_index r n') < n') ->
  forall k chosen rng is ns r,
  draw_clause R gen_bool gen_index fuel k n chosen rng = Some (Done (is, ns, r)) ->
  List.length is = k /\ List.length ns = k /\ NoDup is /\
  Forall (fun i => 0 <= i < n /\ ~ In i chosen) is.
Proof.
  intros Hg k. induction k as [|k IH]; intros chosen rng is ns r H; cbn [draw_clause] in H.
  - inversion H; subst. repeat split; constructor.
  - apply fbind_done in H as [[idx0 rng1] [E0 H]]. injection E0 as E0.
    apply fbind_done in H as [[idx rng2] [E1 H]].
    destruct (gen_bool rng2) as [neg rng3].
    apply fbind_done in H as [[[is' ns'] rng4] [E2 H]].
    inversion H; subst. clear H.
    pose proof (gen_range_ok gen_index rng rng1 n idx0 Hg E0) as Hi0.
    destruct (redraw_ok gen_index n chosen Hg fuel idx0 rng1 idx rng2 Hi0 E1) as [Hi Hc].
    destruct (IH _ _ _ _ _ E2) as (L1 & L2 & Hnd & Hall).
    assert (Hni : ~ In idx is').
    { intros Hin. rewrite Forall_forall in Hall. destruct (Hall _ Hin) as [_ Hn].
      apply Hn, in_or_app. right. left. reflexivity. }
    simpl. repeat split; [lia | lia | constructor; assumption |].
    constructor; [split; assumption|].
    eapply Forall_impl; [|exact Hall]. intros i [Hr Hn]. split; [exact Hr|].
    intros Hin. apply Hn, in_or_app. left. exact Hin.
Qed.

Lemma draw_clause_no_panic {R} (gen_bool : R -> bool * R) (gen_index : R -> Z -> Z * R)
  (fuel : nat) (n : Z) :
  0 < n -> forall k chosen rng, draw_clause R gen_bool gen_index fuel k n chosen rng <> Some Panics.
Proof.
  intros Hn k. induction k as [|k IH]; intros chosen rng; simpl; [discriminate|].
  rewrite gen_range_pos by exact Hn. destruct (gen_index rng n) as [idx0 rng1]. simpl.
  pose proof (redraw_no_panic gen_index n chosen Hn fuel idx0 rng1) as Hr.
  destruct (redraw R gen_index fuel n chosen idx0 rng1) as [[[idx rng2]|]|]; simpl;
    [|congruence|discriminate].
  destruct (gen_bool rng2) as [neg rng3].
  pose proof (IH (chosen ++ [idx]) rng3) as Hk.
  destruct (draw_clause R gen_bool gen_index fuel k n (chosen ++ [idx]) rng3)
    as [[[[is ns] rng4]|]|]; simpl; congruence.
Qed.

Lemma combine_index {A} (b : build) (ls : list Literal) (is : list Z) (ns : list A)
  (P : Literal -> A -> Prop) :
  List.length is = List.length ns ->
  Forall2 (fun l p => index b l = Done (fst p) /\ P l (snd p)) ls (combine is ns) ->
  Forall2 (fun l i => index b l = Done i) ls is.
Proof.
  revert ns ls. induction is as [|i is IH]; intros ns ls Hlen H.
  - inversion H; constructor.
  - destruct ns as [|x ns]; [discriminate|]. simpl in H. inversion H as [|l ? ls' ? [Hl _] Hr]; subst.
    constructor; [exact Hl|]. eapply IH; [|exact Hr]. simpl in Hlen. lia.
Qed.

Lemma draw_clauses_ok {R} (gen_bool : R -> bool * R) (gen_index : R -> Z -> Z * R)
  (b : build) (fuel : nat) (k : nat) (n : Z) :
  (forall r n', 0 < n' -> 0 <= fst (gen_index r n') < n') ->
  forall m rng cs r,
  draw_clauses R gen_bool gen_index b fuel m k n rng = Some (Done (cs, r)) ->
  List.length cs = m /\
  Forall (fun c => List.length (clause_lits c) = k /\
          exists is, NoDup is /\ Forall (fun i => 0 <= i < n) is /\
                     Forall2 (fun l i => index b l = Done i) (clause_lits c) is) cs.
Proof.
  intros Hg m. induction m as [|m IH]; intros rng cs r H; cbn [draw_clauses] in H.
  - inversion H; subst. split; [reflexivity|constructor].
  - apply fbind_done in H as [[[is ns] rng1] [E0 H]].
    apply fbind_done in H as [c [E1 H]]. injection E1 as E1.
    apply fbind_done in H as [[cs' rng2] [E2 H]].
    inversion H; subst. clear H.
    destruct (draw_clause_ok gen_bool gen_index fuel n Hg k [] rng is ns rng1 E0)
      as (L1 & L2 & Hnd & Hall).
    destruct (IH _ _ _ E2) as [Lc Hcs].
    unfold Clause_from_indices in E1.
    destruct (from_indices_go b is ns) as [ls|] eqn:Ef; simpl in E1; [|discriminate].
    injection E1 as <-.
    assert (H0 : Forall (fun i => 0 <= i) is)
      by (eapply Forall_impl; [|exact Hall]; intros i [Hi _]; lia).
    destruct (from_indices_go_spec b is ns H0) as [_ G].
    pose proof (combine_index b ls is ns (fun l x => is_negated l = x) ltac:(lia) (G ls Ef)) as Hix.
    simpl. split; [lia|]. constructor; [|exact Hcs].
    simpl. split; [apply Forall2_length in Hix; lia|].
    exists is. split; [exact Hnd|]. split; [|exact Hix].
    eapply Forall_impl; [|exact Hall]. intros i [Hi _]. exact Hi.
Qed.

(** X13: when [new_random] returns, for a generator whose [gen_range(0..n)]
    stays in [0..n): it has [n] variables and [m] clauses, and each clause has
    [k] literals whose indices are pairwise distinct and below [n]. *)
Theorem new_random_shape {R} (gen_bool : R -> bool * R) (gen_index : R -> Z -> Z * R)
  (b : build) (fuel : nat) (n m k : Z) (rng : R) (inst : Instance) :
  (forall r n', 0 < n' -> 0 <= fst (gen_index r n') < n') ->
  new_random R gen_bool gen_index b fuel n m k rng = Some (Done inst) ->
  List.length (vars inst) = Z.to_nat n /\ List.length (clauses inst) = Z.to_nat m /\
  Forall (fun c => List.length (clause_lits c) = Z.to_nat k /\
          exists is, NoDup is /\ Forall (fun i => 0 <= i < n) is /\
                     Forall2 (fun l i => index b l = Done i) (clause_lits c) is)
         (clauses inst).
Proof.
  intros Hg H. unfold new_random in H.
  pose proof (sample_bools_length R gen_bool (Z.to_nat n) rng) as Lv.
  destruct (sample_bools R gen_bool (Z.to_nat n) rng) as [vs rng1].
  apply fbind_done in H as [[cs r] [E H]]. inversion H; subst. clear H.
  destruct (draw_clauses_ok gen_bool gen_index b fuel (Z.to_nat k) n Hg _ _ _ _ E) as [Lc Hc].
  simpl. auto.
Qed.

Lemma new_random_shape_witness :
  List.length (vars (mkInstance [true; false; true]
    [Clause_from_cnf [-2; -3]; Clause_from_cnf [-1; -2]])) = Z.to_nat 3 /\
  List.length (clauses (mkInstance [true; false; true]
    [Clause_from_cnf [-2; -3]; Clause_from_cnf [-1; -2]])) = Z.to_nat 2 /\
  Forall (fun c => List.length (clause_lits c) = Z.to_nat 2 /\
          exists is, NoDup is /\ Forall (fun i => 0 <= i < 3) is /\
                     Forall2 (fun l i => index Debug l = Done i) (clause_lits c) is)
         [Clause_from_cnf [-2; -3]; Clause_from_cnf [-1; -2]].
Proof.
  apply (new_random_shape (R := nat) (fun r => (Nat.even r, S r))
           (fun r n => (Z.of_nat (r / 2) mod n, S r)) Debug 10 3 2 2 0%nat).
  - intros r n' Hn. simpl. apply Z.mod_pos_bound. exact Hn.
  - vm_compute. reflexivity.
Defined.

Lemma NoDup_range_length (is : list Z) (n : Z) :
  NoDup is -> Forall (fun i => 0 <= i < n) is -> (List.length is <= Z.to_nat n)%nat.
Proof.
  intros Hnd Hr.
  replace (Z.to_nat n) with (List.length (map Z.of_nat (seq 0 (Z.to_nat n))))
    by (rewrite length_map, length_seq; reflexivity).
  apply NoDup_incl_length; [exact Hnd|].
  intros i Hi. rewrite Forall_forall in Hr. specialize (Hr i Hi).
  apply in_map_iff. exists (Z.to_nat i). split; [lia|].
  apply in_seq. lia.
Qed.

(** X14: [new_random] never returns when a clause must have more distinct
    variables than there are ([0 < n < k], [m > 0]): the loop
    [while chosen_indices.contains(&idx)] never ends, whatever the number of
    draws allowed and for every generator whose [gen_range(0..n)] stays in
    [0..n). *)
Theorem new_random_diverges {R} (gen_bool : R -> bool * R) (gen_index : R -> Z -> Z * R)
  (b : build) (fuel : nat) (n m k : Z) (rng : R) :
  (forall r n', 0 < n' -> 0 <= fst (gen_index r n') < n') ->
  0 < n < k -> 0 < m ->
  new_random R gen_bool gen_index b fuel n m k rng = None.
Proof.
  intros Hg Hnk Hm. unfold new_random.
  destruct (sample_bools R gen_bool (Z.to_nat n) rng) as [vs rng1].
  destruct (Z.to_nat m) as [|m'] eqn:Em; [lia|].
  cbn [draw_clauses].
  pose proof (draw_clause_no_panic gen_bool gen_index fuel n ltac:(lia) (Z.to_nat k) [] rng1) as Hp.
  destruct (draw_clause R gen_bool gen_index fuel (Z.to_nat k) n [] rng1)
    as [[[[is ns] r]|]|] eqn:E; [|congruence|reflexivity].
  exfalso.
  destruct (draw_clause_ok gen_bool gen_index fuel n Hg _ _ _ _ _ _ E) as (L & _ & Hnd & Hall).
  assert (Hr : Forall (fun i => 0 <= i < n) is)
    by (eapply Forall_impl; [|exact Hall]; intros i [Hi _]; exact Hi).
  pose proof (NoDup_range_length is n Hnd Hr). lia.
Qed.

Lemma new_random_diverges_witness :
  new_random nat (fun r => (Nat.even r, S r)) (fun r n => (Z.of_nat r mod n, S r))
    Release 1000 2 1 3 0%nat = None.
Proof.
  apply new_random_diverges; [|lia|lia].
  intros r n' Hn. simpl. apply Z.mod_pos_bound. exact Hn.
Defined.

(** X15: with no variables ([n = 0]) and at least one clause of at least
    one literal, [new_random] panics at its first [gen_range(0..0)], an
    empty range. *)
Theorem new_random_no_variables {R} (gen_bool : R -> bool * R) (gen_index : R -> Z -> Z * R)
  (b : build) (fuel : nat) (m k : Z) (rng : R) :
  0 < m -> 0 < k ->
  new_random R gen_bool gen_index b fuel 0 m k rng = Some Panics.
Proof.
  intros Hm Hk. unfold new_random. simpl.
  destruct (Z.to_nat m) as [|m'] eqn:Em; [lia|].
  destruct (Z.to_nat k) as [|k'] eqn:Ek; [lia|].
  reflexivity.
Qed.

Lemma new_random_no_variables_witness :
  new_random nat (fun r => (Nat.even r, S r)) (fun r n => (Z.of_nat r mod n, S r))
    Debug 5 0 2 3 0%nat = Some Panics.
Proof. apply new_random_no_variables; lia. Defined.

(** *** [Instance::from_file] *)








Lemma drop_ws_app (l X : text) :
  Exists (fun c => is_whitespace c = false) l -> drop_ws (l ++ X) = drop_ws l ++ X.
Proof.
  induction l as [|c l IH]; intros H; [inversion H|].
  simpl. destruct (is_whitespace c) eqn:E; [|reflexivity].
  apply IH. inversion H; subst; [congruence|assumption].
Qed.

Lemma trim_comment_line (cm s : text) (c0 : ascii) :
  is_whitespace "c"%char = false -> is_whitespace c0 = false ->
  trim (("c"%char :: cm) ++ LF :: c0 :: s) = ("c"%char :: cm) ++ LF :: trim (c0 :: s).
Proof.
  intros Hc H0. unfold trim.
  rewrite !drop_ws_nonws by assumption.
  rewrite <- app_comm_cons, drop_ws_nonws by assumption.
  rewrite <- app_comm_cons.
  replace (rev ("c"%char :: cm ++ LF :: c0 :: s))
    with (rev (c0 :: s) ++ (LF :: rev ("c"%char :: cm)))
    by (change ("c"%char :: cm ++ LF :: c0 :: s) with (("c"%char :: cm) ++ LF :: c0 :: s);
        rewrite rev_app_distr; simpl; rewrite <- !app_assoc; reflexivity).
  rewrite drop_ws_app.
  - rewrite rev_app_distr.
    change (rev (LF :: rev ("c"%char :: cm))) with (rev (rev ("c"%char :: cm)) ++ [LF]).
    rewrite rev_involutive, <- app_assoc. reflexivity.
  - simpl. apply Exists_exists. exists c0. split; [|exact H0].
    apply in_or_app. right. left. reflexivity.
Qed.

Lemma strip_cr_starts_c (cm : text) :
  starts_with_c (strip_cr ("c"%char :: cm)) = true.
Proof.
  destruct cm as [|x cm] using rev_ind; [reflexivity|].
  unfold strip_cr. rewrite app_comm_cons, rev_app_distr. simpl.
  destruct (Ascii.eqb x CR); [rewrite rev_app_distr|]; reflexivity.
Qed.

(** X17: a comment line (a line starting with ['c']) in front of a file
    that starts with a non-whitespace character does not change what
    [from_file] returns. *)
Theorem from_file_skips_comment (cm s : text) (c0 : ascii) :
  forallb (fun x => negb (Ascii.eqb x LF)) cm = true ->
  is_whitespace c0 = false ->
  from_file (("c"%char :: cm) ++ LF :: c0 :: s) = from_file (c0 :: s).
Proof.
  intros Hcm H0. unfold from_file.
  rewrite trim_comment_line by (reflexivity || exact H0).
  unfold lines. rewrite lines_go_line.
  - simpl skip_while at 1. rewrite strip_cr_starts_c. reflexivity.
  - constructor; [discriminate|].
    apply forallb_Forall in Hcm. eapply Forall_impl; [|exact Hcm].
    intros x Hx E. subst x. discriminate.
Qed.

Lemma from_file_skips_comment_witness :
  from_file (("c"%char :: text_of " generated") ++ LF :: "p"%char :: text_of " cnf 2 1
1 -2 0") = from_file ("p"%char :: text_of " cnf 2 1
1 -2 0").
Proof. apply from_file_skips_comment; reflexivity. Defined.

Lemma drop_ws_all (s : text) : forallb is_whitespace s = true -> drop_ws s = [].
Proof.
  induction s as [|c s IH]; simpl; [reflexivity|].
  intros H. apply andb_prop in H as [H1 H2]. rewrite H1. apply IH, H2.
Qed.

(** X18: an empty file, or one holding only whitespace, is rejected with
    [InvalidInput]: there is no header line. *)
Theorem from_file_blank (s : text) :
  forallb is_whitespace s = true -> from_file s = InvalidInput.
Proof.
  intros H. unfold from_file, trim. rewrite (drop_ws_all s H). reflexivity.
Qed.

Lemma from_file_blank_witness : from_file (text_of "
  ") = InvalidInput.
Proof. apply from_file_blank. reflexivity. Defined.

(** *** Round trip for every nonzero [isize] literal *)

(** X19: [to_file] then [from_file] gives back the clauses for every
    instance whose literals are nonzero [isize] values, including literals
    that index no variable and [isize::MIN]: neither function checks a
    literal against the number of variables. *)
Theorem to_file_from_file_any_literal (inst : Instance) :
  Z.of_nat (List.length (vars inst)) <= usize_max ->
  Z.of_nat (List.length (clauses inst)) <= usize_max ->
  forallb (fun c => forallb (fun l => in_isize (lit_cnf l) && negb (lit_cnf l =? 0))
                            (clause_lits c)) (clauses inst) = true ->
  from_file (to_file inst) =
  Loaded (mkInstance (repeat false (List.length (vars inst))) (clauses inst)).
Proof.
  intros Hv Hc Hl.
  assert (Hlits : Forall (fun c => Forall (fun l => in_isize (lit_cnf l) = true /\ lit_cnf l <> 0)
                                          (clause_lits c)) (clauses inst)).
  { apply forallb_Forall in Hl. eapply Forall_impl; [|exact Hl]. intros c Hc'.
    apply forallb_Forall in Hc'. eapply Forall_impl; [|exact Hc']. intros l Hl'.
    apply andb_prop in Hl' as [H1 H2]. apply negb_true_iff, Z.eqb_neq in H2. auto. }
  unfold from_file. rewrite lines_trim_to_file.
  assert (Hs : starts_with_c (header_line inst) = false) by reflexivity.
  cbn [skip_while]. rewrite Hs, split_header_line. cbn [skipn].
  destruct (list_eq_dec ascii_dec (text_of "cnf") (text_of "cnf")) as [_|N];
    [|contradiction N; reflexivity].
  rewrite !parse_show_usize by lia.
  rewrite take_Z_all by (rewrite length_map; lia).
  rewrite collect_clause_lines by exact Hlits.
  rewrite Nat2Z.id. reflexivity.
Qed.

Lemma to_file_from_file_any_literal_witness :
  from_file (to_file (mkInstance [true] [Clause_from_cnf [7; -9223372036854775808]])) =
  Loaded (mkInstance (repeat false (List.length [true])) [Clause_from_cnf [7; -9223372036854775808]]).
Proof.
  apply to_file_from_file_any_literal; [unfold usize_max; simpl; lia | unfold usize_max; simpl; lia |].
  reflexivity.
Defined.

(** X20: [negate] (in place, [*= -1]) and [negated] ([from_cnf(-self.0)])
    agree on every literal, overflow included: both panic on [isize::MIN]
    in debug builds and both leave it unchanged in release builds; the
    same holds for [Clause::negate] and [Clause::negated]. *)
Theorem negate_is_negated (b : build) :
  (forall l, negate b l = negated b l) /\
  (forall c, Clause_negate b c = Clause_negated b c).
Proof.
  assert (E : forall l, negate b l = negated b l).
  { intros [v]. unfold negate, negated, isize_mul, isize_neg. simpl.
    replace (v * -1) with (- v) by lia. reflexivity. }
  split; [exact E|].
  intros [ls]. unfold Clause_negate, Clause_negated. simpl. f_equal.
  induction ls as [|l ls IH]; simpl; [reflexivity|]. rewrite E, IH. reflexivity.
Qed.

(** *** Line endings *)

Lemma drop_ws_ws_prefix (E X : text) :
  forallb is_whitespace E = true -> drop_ws (E ++ X) = drop_ws X.
Proof.
  induction E as [|e E IH]; simpl; [reflexivity|].
  intros H. apply andb_prop in H as [H1 H2]. rewrite H1. apply IH, H2.
Qed.

Lemma trim_trailing_ws (c : ascii) (s Y : text) (d : ascii) (E : text) :
  is_whitespace c = false -> is_whitespace d = false -> forallb is_whitespace E = true ->
  c :: s = Y ++ [d] ->
  trim (Y ++ d :: E) = Y ++ [d].
Proof.
  intros Hc Hd HE Es. unfold trim.
  replace (Y ++ d :: E) with (c :: s ++ E)
    by (rewrite app_comm_cons, Es, <- app_assoc; reflexivity).
  rewrite drop_ws_nonws by assumption.
  rewrite app_comm_cons, Es, <- app_assoc, rev_app_distr.
  replace (rev ([d] ++ E)) with (rev E ++ [d]) by (rewrite rev_app_distr; reflexivity).
  rewrite <- app_assoc, (drop_ws_ws_prefix (rev E)).
  - cbn [app]. rewrite drop_ws_nonws by assumption.
    change (rev (d :: rev Y)) with (rev (rev Y) ++ [d]).
    rewrite rev_involutive. reflexivity.
  - rewrite forallb_forall in HE |- *. intros x Hx. apply HE, in_rev, Hx.
Qed.

Lemma trim_trailing_ws_app (c : ascii) (s Y : text) (d : ascii) (E : text) :
  is_whitespace c = false -> is_whitespace d = false -> forallb is_whitespace E = true ->
  c :: s = Y ++ [d] ++ E ->
  trim (Y ++ d :: E) = Y ++ [d].
Proof.
  intros Hc Hd HE Es. destruct Y as [|y Y'].
  - apply (trim_trailing_ws d [] []); auto.
  - simpl in Es. inversion Es; subst.
    apply (trim_trailing_ws y (Y' ++ [d]) (y :: Y')); auto.
Qed.

Lemma in_removelast {A} (x : A) (l : list A) : In x (removelast l) -> In x l.
Proof.
  induction l as [|a l IH]; simpl; [tauto|].
  destruct l as [|a' l']; simpl; [tauto|].
  intros [->|H]; [left; reflexivity | right; apply IH, H].
Qed.

Lemma lines_go_last (t acc : text) :
  Forall (fun c => c <> LF) t -> rev acc ++ t <> [] -> lines_go acc t = [rev acc ++ t].
Proof.
  revert acc. induction t as [|c t IH]; intros acc Ht Hne.
  - simpl. rewrite app_nil_r in *. destruct acc; [contradiction|reflexivity].
  - inversion Ht; subst. simpl. destruct (Ascii.eqb_spec c LF); [contradiction|].
    rewrite IH; [simpl; rewrite <- app_assoc; reflexivity | assumption |].
    simpl. rewrite <- app_assoc. simpl. intros E. apply app_eq_nil in E as [_ E]. discriminate.
Qed.

Lemma lines_ending (sep : text) (L : list text) (t : text) :
  Forall (Forall (fun c => c <> LF)) L -> Forall (fun c => c <> LF) sep ->
  Forall (fun c => c <> LF) t -> t <> [] ->
  lines (flat_map (fun u => u ++ sep ++ [LF]) L ++ t) = map (fun u => strip_cr (u ++ sep)) L ++ [t].
Proof.
  intros HL Hs Ht Hne. unfold lines. induction HL as [|u L Hu HL IH].
  - simpl. apply lines_go_last; assumption.
  - simpl. rewrite <- !app_assoc. simpl.
    rewrite app_assoc, lines_go_line by (apply Forall_app; split; assumption).
    simpl. f_equal. exact IH.
Qed.

Lemma ends_nonws_b_spec (t : text) :
  ends_nonws_b t = true -> exists Y d, t = Y ++ [d] /\ is_whitespace d = false.
Proof.
  unfold ends_nonws_b. intros H.
  destruct (rev t) as [|d r] eqn:E; [discriminate|].
  exists (rev r), d. split; [|apply negb_true_iff, H].
  rewrite <- (rev_involutive t), E. reflexivity.
Qed.

Lemma has_no_LF_spec (t : text) : has_no_LF t = true -> Forall (fun c => c <> LF) t.
Proof.
  intros H. apply forallb_Forall in H. eapply Forall_impl; [|exact H].
  intros x Hx E. subst. discriminate.
Qed.

Lemma lines_trim_ending (sep : text) (L : list text) :
  forallb is_whitespace sep = true -> Forall (fun c => c <> LF) sep ->
  starts_nonws (hd [] L) = true ->
  forallb (fun t => ends_nonws_b t && has_no_LF t) L = true ->
  lines (trim (flat_map (fun u => u ++ sep ++ [LF]) L)) = map (fun u => strip_cr (u ++ sep)) (removelast L) ++ [last L []].
Proof.
  intros Hsep HsLF Hst HL.
  apply forallb_Forall in HL.
  destruct L as [|t0 L0] eqn:EL; [discriminate|]. rewrite <- EL in *.
  assert (Hne : L <> []) by (rewrite EL; discriminate).
  destruct (exists_last Hne) as (L' & t & EL').
  assert (Ht : ends_nonws_b t && has_no_LF t = true)
    by (rewrite Forall_forall in HL; apply HL; rewrite EL'; apply in_or_app; right; left; reflexivity).
  apply andb_prop in Ht as [Ht1 Ht2].
  destruct (ends_nonws_b_spec t Ht1) as (Y0 & d & Et & Hd).
  assert (HL' : Forall (Forall (fun c => c <> LF)) L').
  { apply Forall_forall. intros u Hu. apply has_no_LF_spec.
    rewrite Forall_forall in HL. assert (Hin : In u L) by (rewrite EL'; apply in_or_app; left; exact Hu).
    apply HL in Hin. apply andb_prop in Hin. tauto. }
  rewrite EL', removelast_last, last_last.
  rewrite flat_map_app. cbn [flat_map]. rewrite app_nil_r.
  assert (Hflat : @flat_map text ascii (fun u : list ascii => u ++ sep ++ [LF]) L' ++ t ++ sep ++ [LF] =
                  (@flat_map text ascii (fun u : list ascii => u ++ sep ++ [LF]) L' ++ Y0) ++ d :: (sep ++ [LF])).
  { rewrite Et, <- !app_assoc. reflexivity. }
  destruct (hd [] L) as [|c s0] eqn:Eh; [discriminate|].
  assert (Hc : is_whitespace c = false) by (apply negb_true_iff, Hst).
  assert (Hfirst : exists s, flat_map (fun u => u ++ sep ++ [LF]) L = c :: s).
  { rewrite EL in Eh |- *. simpl in Eh. subst t0. eexists. reflexivity. }
  destruct Hfirst as (s & Es). rewrite EL', flat_map_app in Es. cbn [flat_map] in Es.
  rewrite app_nil_r, Hflat in Es.
  rewrite Hflat.
  rewrite (trim_trailing_ws_app c s _ d (sep ++ [LF])); [| exact Hc | exact Hd | |].
  - rewrite <- app_assoc, <- Et. apply lines_ending; [exact HL' | exact HsLF | |].
    + apply has_no_LF_spec, Ht2.
    + rewrite Et. intros E. apply app_eq_nil in E as [_ E]. discriminate.
  - rewrite forallb_app, Hsep. reflexivity.
  - rewrite <- Es. reflexivity.
Qed.

(** X21: [from_file] reads a file with Windows line endings (["\r\n"]) as
    the same file with ["\n"] endings, for lines that end in a
    non-whitespace character and a first line that starts with one. *)
Theorem from_file_crlf (L : list text) :
  starts_nonws (hd [] L) = true ->
  forallb (fun t => ends_nonws_b t && has_no_LF t) L = true ->
  from_file (flat_map (fun t => t ++ [CR; LF]) L) = from_file (flat_map (fun t => t ++ [LF]) L).
Proof.
  intros Hst HL.
  assert (E1 : lines (trim (flat_map (fun t => t ++ [CR; LF]) L)) =
               map (fun u => strip_cr (u ++ [CR])) (removelast L) ++ [last L []])
    by (apply (lines_trim_ending [CR]); [reflexivity | repeat constructor; discriminate | exact Hst | exact HL]).
  assert (E2 : lines (trim (flat_map (fun t => t ++ [] ++ [LF]) L)) =
               map (fun u => strip_cr (u ++ [])) (removelast L) ++ [last L []])
    by (apply (lines_trim_ending []); [reflexivity | constructor | exact Hst | exact HL]).
  cbn [app] in E2.
  assert (Hm : map (fun u => strip_cr (u ++ [CR])) (removelast L) =
               map (fun u => strip_cr (u ++ [])) (removelast L)).
  { apply map_ext_in. intros u Hu. rewrite app_nil_r.
    apply forallb_Forall in HL. rewrite Forall_forall in HL.
    apply in_removelast in Hu. apply HL, andb_prop in Hu as [Hu _].
    destruct (ends_nonws_b_spec u Hu) as (Y & d & -> & Hd).
    rewrite (strip_cr_nonws Y d Hd).
    unfold strip_cr. rewrite rev_app_distr. simpl. rewrite rev_involutive. reflexivity. }
  unfold from_file. rewrite E1, E2, Hm. reflexivity.
Qed.

Lemma from_file_crlf_witness :
  from_file (flat_map (fun t => t ++ [CR; LF]) [text_of "p cnf 2 1"; text_of "1 -2 0"]) =
  from_file (flat_map (fun t => t ++ [LF]) [text_of "p cnf 2 1"; text_of "1 -2 0"]).
Proof. apply from_file_crlf; reflexivity. Defined.

(** *** What a result of [test_sat] and [count_sat] tells *)

(** X22: [test_sat] returns [false] exactly when every literal evaluates to
    [false] (so every literal was in range), and returns [true] exactly when
    some literal evaluates to [true] after literals that all evaluated to
    [false]; literals after that one are not evaluated. *)
Theorem test_sat_results (b : build) (c : Clause) (vs : BoolVec) :
  (test_sat b c vs = Done false <->
   Forall (fun l => eval_with b l vs = Done false) (clause_lits c)) /\
  (test_sat b c vs = Done true <->
   exists p l r, clause_lits c = p ++ l :: r /\
                 Forall (fun x => eval_with b x vs = Done false) p /\
                 eval_with b l vs = Done true).
Proof.
  unfold test_sat. induction (clause_lits c) as [|l ls IH]; simpl.
  - split; [split; [constructor | reflexivity]|].
    split; [discriminate|]. intros (p & l & r & E & _). destruct p; discriminate.
  - destruct IH as [IHf IHt].
    destruct (eval_with b l vs) as [[|]|] eqn:El; simpl.
    + split.
      * split; [discriminate|]. intros H. inversion H; subst. congruence.
      * split; [|reflexivity]. intros _. exists [], l, ls. auto.
    + split.
      * rewrite IHf. split; [intros H; constructor; assumption|].
        intros H. inversion H; assumption.
      * rewrite IHt. split.
        -- intros (p & l' & r & -> & Hp & Hl'). exists (l :: p), l', r. auto.
        -- intros (p & l' & r & E & Hp & Hl').
           destruct p as [|x p]; simpl in E; inversion E; subst; [congruence|].
           inversion Hp; subst. exists p, l', r. auto.
    + split.
      * split; [discriminate|]. intros H. inversion H; subst. congruence.
      * split; [discriminate|]. intros (p & l' & r & E & Hp & Hl').
        destruct p as [|x p]; simpl in E; inversion E; subst; [congruence|].
        inversion Hp; subst. congruence.
Qed.

(** X23: when [count_sat] returns, its result lies between 0 and the number
    of clauses, and [is_sat] returns [true] exactly when it equals that
    number. *)
Theorem count_sat_bounds (b : build) (inst : Instance) (n : Z) :
  count_sat b inst = Done n ->
  0 <= n <= Z.of_nat (List.length (clauses inst)) /\
  is_sat b inst = Done (n =? Z.of_nat (List.length (clauses inst))).
Proof.
  intros H. split.
  - unfold count_sat in H. revert n H.
    induction (clauses inst) as [|c cs IH]; intros n H; simpl in H.
    + inversion H. simpl. lia.
    + destruct (test_sat b c (vars inst)) as [s|]; simpl in H; [|discriminate].
      destruct (count_sat_go b cs (vars inst)) as [k|]; simpl in H; [|discriminate].
      inversion H; subst. specialize (IH k eq_refl).
      simpl List.length. destruct s; lia.
  - unfold is_sat. rewrite H. reflexivity.
Qed.

Lemma count_sat_bounds_witness :
  0 <= 1 <= Z.of_nat (List.length (clauses (mkInstance [true] [Clause_from_cnf [1]; Clause_from_cnf [-1]]))) /\
  is_sat Debug (mkInstance [true] [Clause_from_cnf [1]; Clause_from_cnf [-1]]) =
  Done (1 =? Z.of_nat (List.length (clauses (mkInstance [true] [Clause_from_cnf [1]; Clause_from_cnf [-1]])))).
Proof. apply count_sat_bounds. reflexivity. Defined.
